(** * The turntable release inhibitor ([src/inhibitor.h])

    A shallow embedding of the C++ class [Inhibitor] and the properties its
    specification states about it.

    The class has two data members, an [unsigned long] holding the previous
    turn time and an [unsigned short] counting the remaining inhibited rounds,
    a [const double] threshold, and three member functions.  The change test
    of [lightSpeedCallback] is carried out in [double] arithmetic; it is
    modelled with the IEEE-754 operations of [SpecFloat], so conversions,
    subtraction and division round as the hardware rounds them. *)

From Stdlib Require Import ZArith Lia Bool List String.
From Stdlib Require Import Floats.SpecFloat.
Import ListNotations.
Local Open Scope Z_scope.

(** ** Platform types *)

(** The representation of the C++ type [double].  It is binary64 on the usual
    targets and binary32 on 8-bit AVR boards; the results below are proved for
    both. *)
Inductive Format : Set := binary32 | binary64.

Definition prec (fmt : Format) : Z :=
  match fmt with binary32 => 24 | binary64 => 53 end.

Definition emax (fmt : Format) : Z :=
  match fmt with binary32 => 128 | binary64 => 1024 end.

(** [unsigned short]: 16 bits, arithmetic modulo [2^16]. *)
Definition USHRT_MODULUS : Z := 2 ^ 16.
Definition ushort_wrap (n : Z) : Z := n mod USHRT_MODULUS.
Definition ushort_range (n : Z) : Prop := 0 <= n < USHRT_MODULUS.

(** [unsigned long]: 32 or 64 bits depending on the target.  The class never
    computes with such a value as an integer (it only stores it and converts
    it to [double]), so only the range of the type matters. *)
Definition ULONG_WIDEST : Z := 2 ^ 64.
Definition ulong_range (n : Z) : Prop := 0 <= n < ULONG_WIDEST.

(** ** [double] arithmetic *)

Module Double.

(** [static_cast<double>(n)] for an unsigned integer [n]: the nearest
    representable value, ties to even. *)
Definition of_ulong (fmt : Format) (n : Z) : spec_float :=
  binary_normalize (prec fmt) (emax fmt) n 0 false.

Definition sub (fmt : Format) (x y : spec_float) : spec_float :=
  SFsub (prec fmt) (emax fmt) x y.

Definition div (fmt : Format) (x y : spec_float) : spec_float :=
  SFdiv (prec fmt) (emax fmt) x y.

Definition fabs (x : spec_float) : spec_float := SFabs x.

(** The operator [>] on doubles; false as soon as one side is a NaN. *)
Definition gt (x y : spec_float) : bool :=
  match SFcompare x y with
  | Some Gt => true
  | _ => false
  end.

(** A decimal literal [num / den] (here [0.08 = 8 / 100]) denotes the double
    nearest to that quotient. *)
Definition literal (fmt : Format) (num den : Z) : spec_float :=
  div fmt (of_ulong fmt num) (of_ulong fmt den).

Definition one (fmt : Format) : spec_float := of_ulong fmt 1.

End Double.

(** ** The object and its member functions *)

Record Inhibitor : Set := mkInhibitor
  { mLastTurnTime : Z      (* unsigned long *)
  ; mInhibitRounds : Z     (* unsigned short *)
  }.

(** The object as its default member initialisers leave it. *)
Definition Inhibitor_new : Inhibitor :=
  {| mLastTurnTime := 0; mInhibitRounds := 0 |}.

(** What the [debugprint] and [debugprintln] macros are handed. *)
Inductive debug_arg : Set :=
| dbg_text (s : string)
| dbg_ulong (n : Z).

Inductive debug_out : Set :=
| debugprint_of (a : debug_arg)
| debugprintln_of (a : debug_arg).

(** A member function reads and writes the object it is called on and may
    emit debug output. *)
Definition method (A : Type) : Type :=
  Inhibitor -> A * Inhibitor * list debug_out.

Definition ret {A : Type} (a : A) : method A :=
  fun this => (a, this, []).

Definition bind {A B : Type} (m : method A) (k : A -> method B) : method B :=
  fun this =>
    let '(a, this1, out1) := m this in
    let '(b, this2, out2) := k a this1 in
    (b, this2, out1 ++ out2).

Declare Scope method_scope.
Delimit Scope method_scope with method.
Notation "x <- m ;; k" := (bind m (fun x => k))
  (at level 61, m at next level, right associativity) : method_scope.
Notation "m ;; k" := (bind m (fun _ => k))
  (at level 61, right associativity) : method_scope.
Local Open Scope method_scope.

Definition get_mLastTurnTime : method Z :=
  fun this => (mLastTurnTime this, this, []).

Definition get_mInhibitRounds : method Z :=
  fun this => (mInhibitRounds this, this, []).

Definition set_mLastTurnTime (v : Z) : method unit :=
  fun this =>
    (tt, {| mLastTurnTime := v; mInhibitRounds := mInhibitRounds this |}, []).

Definition set_mInhibitRounds (v : Z) : method unit :=
  fun this =>
    (tt, {| mLastTurnTime := mLastTurnTime this; mInhibitRounds := v |}, []).

(** Modelled from the spec: the macros [debugprint] and [debugprintln] are
    used by [lightSpeedCallback] but not defined in [inhibitor.h].  The spec
    leaves the debug traces out of scope and allows a diagnostic sink on
    which nothing depends; each use is recorded as an item handed to such a
    sink and the object is left untouched. *)
Definition debugprint (a : debug_arg) : method unit :=
  fun this => (tt, this, [debugprint_of a]).

(** Modelled from the spec: as [debugprint], for the macro that ends the
    line. *)
Definition debugprintln (a : debug_arg) : method unit :=
  fun this => (tt, this, [debugprintln_of a]).

(** The three observations of a call: the value returned, the object
    afterwards, and the debug output. *)
Definition result {A : Type} (m : method A) (this : Inhibitor) : A :=
  fst (fst (m this)).

Definition exec {A : Type} (m : method A) (this : Inhibitor) : Inhibitor :=
  snd (fst (m this)).

Definition output {A : Type} (m : method A) (this : Inhibitor)
  : list debug_out :=
  snd (m this).

(** [const double RELATIVE_INHIBITION_THRESHOLD = 0.08;] *)
Definition RELATIVE_INHIBITION_THRESHOLD (fmt : Format) : spec_float :=
  Double.literal fmt 8 100.

(** The left operand of the comparison in [lightSpeedCallback]:
    [fabs(double(mLastTurnTime) - double(turnTime)) / double(turnTime)]. *)
Definition relative_deviation (fmt : Format) (last turnTime : Z) : spec_float :=
  Double.div fmt
    (Double.fabs
       (Double.sub fmt (Double.of_ulong fmt last)
                       (Double.of_ulong fmt turnTime)))
    (Double.of_ulong fmt turnTime).

Definition lightSpeedCallback (fmt : Format) (turnTime : Z) : method unit :=
  last <- get_mLastTurnTime ;;
  (if Double.gt (relative_deviation fmt last turnTime)
                (RELATIVE_INHIBITION_THRESHOLD fmt)
   then
     debugprintln (dbg_text "=== inhibition") ;;
     debugprint (dbg_text "last turn time: ") ;;
     (shown <- get_mLastTurnTime ;; debugprintln (dbg_ulong shown)) ;;
     debugprint (dbg_text "this turn time: ") ;;
     debugprintln (dbg_ulong turnTime) ;;
     set_mInhibitRounds 2
   else ret tt) ;;
  set_mLastTurnTime turnTime.

(** The parameter of [hallSpeedCallback] has no name in the source. *)
Definition hallSpeedCallback (_ : Z) : method unit :=
  rounds <- get_mInhibitRounds ;;
  if 0 <? rounds
  then set_mInhibitRounds (ushort_wrap (rounds - 1))
  else ret tt.

Definition isInhibited : method bool :=
  rounds <- get_mInhibitRounds ;;
  ret (negb (rounds =? 0)).

(** *** Call sequences *)

Inductive call : Set :=
| LightSpeed (turnTime : Z)
| HallSpeed (turnTime : Z)
| IsInhibited.

Definition step (fmt : Format) (this : Inhibitor) (c : call) : Inhibitor :=
  match c with
  | LightSpeed t => exec (lightSpeedCallback fmt t) this
  | HallSpeed t => exec (hallSpeedCallback t) this
  | IsInhibited => exec isInhibited this
  end.

(** The object after the calls of [cs], made in order. *)
Definition run (fmt : Format) (cs : list call) (this : Inhibitor) : Inhibitor :=
  fold_left (step fmt) cs this.

(** *** The names of the specification *)

Definition REARM : Z := 2.

Definition Clear (this : Inhibitor) : Prop := mInhibitRounds this = 0.

(** ** Notions used to analyse the rounding *)

(** A shift record that carries no rounding information. *)
Definition exact_rec (m : Z) : shr_record :=
  {| shr_m := m; shr_r := false; shr_s := false |}.

(** The canonical mantissa and exponent of a positive integer of at most
    [pr] bits, and the double that represents it. *)
Definition canon_m (pr N : Z) : Z := N * 2 ^ (pr - Zdigits2 N).

Definition canon_e (pr N : Z) : Z := Zdigits2 N - pr.

Definition canon_float (fmt : Format) (N : Z) : spec_float :=
  S754_finite false (Z.to_pos (canon_m (prec fmt) N)) (canon_e (prec fmt) N).

(** The quotient [a / b] rounded to the nearest integer, ties to even. *)
Definition rne (a b : Z) : Z :=
  let q := a / b in
  match 2 * (a mod b) ?= b with
  | Lt => q
  | Eq => if Z.even q then q else q + 1
  | Gt => q + 1
  end.

(** The quotient of two mantissas of [pr] bits has [pr + 1] bits when the
    dividend is the larger one, and [pr] bits otherwise. *)
Definition quot_shift (m1 m2 : Z) : Z := if m2 <=? m1 then 1 else 0.

(** The mantissa of the threshold; its exponent is [- prec - 3]. *)
Definition THRESHOLD_m (fmt : Format) : Z :=
  match fmt with binary32 => 10737418 | binary64 => 5764607523034235 end.

(** Turn times below this bound are converted without rounding and their
    quotients stay clear of the rounding boundaries next to the threshold. *)
Definition exact_range (fmt : Format) : Z :=
  match fmt with binary32 => 2 ^ 22 | binary64 => 2 ^ 52 end.

(** ** Notions used to state how calls compose *)

(** The condition of the [if] in [lightSpeedCallback], for the stored turn
    time [last] and the new one. *)
Definition exceeds_threshold (fmt : Format) (last turnTime : Z) : bool :=
  Double.gt (relative_deviation fmt last turnTime)
            (RELATIVE_INHIBITION_THRESHOLD fmt).

(** A sequence of calls is quiet when none of its [lightSpeedCallback] calls
    finds the condition true; [last] is the stored turn time it starts
    from. *)
Fixpoint quiet (fmt : Format) (last : Z) (cs : list call) : bool :=
  match cs with
  | [] => true
  | LightSpeed p :: cs' => negb (exceeds_threshold fmt last p) && quiet fmt p cs'
  | HallSpeed _ :: cs' => quiet fmt last cs'
  | IsInhibited :: cs' => quiet fmt last cs'
  end.

(** The number of [hallSpeedCallback] calls in a sequence. *)
Fixpoint ticks (cs : list call) : Z :=
  match cs with
  | [] => 0
  | HallSpeed _ :: cs' => 1 + ticks cs'
  | _ :: cs' => ticks cs'
  end.

(** The argument of the last [lightSpeedCallback] call of a sequence, and
    [stored] when it has none. *)
Fixpoint last_sample (cs : list call) (stored : Z) : Z :=
  match cs with
  | [] => stored
  | LightSpeed p :: cs' => last_sample cs' p
  | _ :: cs' => last_sample cs' stored
  end.

(** ** The largest ranges on which the test is the exact one *)

(** A stored turn time below this bound converts to [double] without
    rounding: it has at most as many bits as the mantissa. *)
Definition stored_range (fmt : Format) : Z := 2 ^ prec fmt.


Ltac fmt_cases fmt :=
  destruct fmt; cbv [prec emax THRESHOLD_m exact_range] in *; cbn [Z.odd] in *.

(** * Properties *)

(** ** The member functions, one call at a time *)

Lemma exec_lightSpeedCallback (fmt : Format) (this : Inhibitor) (t : Z) :
  exec (lightSpeedCallback fmt t) this =
  {| mLastTurnTime := t
   ; mInhibitRounds :=
       if Double.gt (relative_deviation fmt (mLastTurnTime this) t)
                    (RELATIVE_INHIBITION_THRESHOLD fmt)
       then 2 else mInhibitRounds this |}.
Proof.
  unfold exec, lightSpeedCallback, bind, get_mLastTurnTime. cbn.
  destruct (Double.gt _ _); reflexivity.
Qed.

Lemma exec_hallSpeedCallback (this : Inhibitor) (t : Z) :
  exec (hallSpeedCallback t) this =
  {| mLastTurnTime := mLastTurnTime this
   ; mInhibitRounds :=
       if 0 <? mInhibitRounds this
       then ushort_wrap (mInhibitRounds this - 1)
       else mInhibitRounds this |}.
Proof.
  unfold exec, hallSpeedCallback, bind, get_mInhibitRounds. cbn.
  destruct this as [l r]; cbn. destruct (0 <? r); reflexivity.
Qed.

Lemma exec_isInhibited (this : Inhibitor) : exec isInhibited this = this.
Proof. reflexivity. Qed.

Lemma result_isInhibited (this : Inhibitor) :
  result isInhibited this = negb (mInhibitRounds this =? 0).
Proof. reflexivity. Qed.

Lemma ushort_wrap_pred (r : Z) :
  0 < r -> ushort_range r -> ushort_wrap (r - 1) = r - 1.
Proof.
  unfold ushort_range, ushort_wrap. intros Hr Hrange.
  apply Z.mod_small. lia.
Qed.

Lemma ushort_wrap_pred_le (r : Z) : 0 < r -> 0 <= ushort_wrap (r - 1) <= r - 1.
Proof.
  unfold ushort_wrap, USHRT_MODULUS. intros Hr. split.
  - apply Z.mod_pos_bound. lia.
  - apply Z.mod_le; lia.
Qed.

(** ** Call sequences *)

Lemma run_app (fmt : Format) (cs1 cs2 : list call) (this : Inhibitor) :
  run fmt (cs1 ++ cs2) this = run fmt cs2 (run fmt cs1 this).
Proof. unfold run. apply fold_left_app. Qed.

Lemma run_cons (fmt : Format) (c : call) (cs : list call) (this : Inhibitor) :
  run fmt (c :: cs) this = run fmt cs (step fmt this c).
Proof. reflexivity. Qed.

Lemma run_snoc (fmt : Format) (cs : list call) (c : call) (this : Inhibitor) :
  run fmt (cs ++ [c]) this = step fmt (run fmt cs this) c.
Proof. rewrite run_app. reflexivity. Qed.

(** Every call keeps the counter between zero and two once it is there. *)
Lemma step_rounds_range (fmt : Format) (this : Inhibitor) (c : call) :
  0 <= mInhibitRounds this <= 2 ->
  0 <= mInhibitRounds (step fmt this c) <= 2.
Proof.
  intros Hr. destruct c as [t|t|]; cbn [step].
  - rewrite exec_lightSpeedCallback. cbn [mInhibitRounds].
    destruct (Double.gt _ _); lia.
  - rewrite exec_hallSpeedCallback. cbn [mInhibitRounds].
    destruct (Z.ltb_spec 0 (mInhibitRounds this)) as [Hpos|Hzero]; [|lia].
    pose proof (ushort_wrap_pred_le _ Hpos). lia.
  - rewrite exec_isInhibited. assumption.
Qed.

Lemma run_rounds_range (fmt : Format) (cs : list call) :
  0 <= mInhibitRounds (run fmt cs Inhibitor_new) <= 2.
Proof.
  induction cs as [|c cs IH] using rev_ind.
  - cbn. lia.
  - rewrite run_snoc. apply step_rounds_range. exact IH.
Qed.

(** ** Binary digits *)

Lemma digits2_pos_size (p : positive) : digits2_pos p = Pos.size p.
Proof. induction p; simpl; congruence. Qed.

Lemma Zdigits2_log2 (z : Z) : 0 < z -> Zdigits2 z = Z.log2 z + 1.
Proof.
  destruct z as [|p|p]; try lia. intros _. simpl. rewrite digits2_pos_size.
  destruct p; simpl; lia.
Qed.

Lemma Zdigits2_pos (m : Z) : 0 < m -> 1 <= Zdigits2 m.
Proof.
  intros H. rewrite Zdigits2_log2 by assumption.
  pose proof (Z.log2_nonneg m). lia.
Qed.

(** [d] digits: between [2^(d-1)] and [2^d]. *)
Lemma Zdigits2_bounds (z : Z) :
  0 < z -> 2 ^ (Zdigits2 z - 1) <= z < 2 ^ Zdigits2 z.
Proof.
  intros Hz. rewrite Zdigits2_log2 by assumption.
  replace (Z.log2 z + 1 - 1) with (Z.log2 z) by lia.
  replace (Z.log2 z + 1) with (Z.succ (Z.log2 z)) by lia.
  apply Z.log2_spec; assumption.
Qed.

Lemma Zdigits2_unique (z d : Z) :
  2 ^ (d - 1) <= z < 2 ^ d -> 0 < d -> Zdigits2 z = d.
Proof.
  intros H Hd.
  assert (0 < 2 ^ (d - 1)) by (apply Z.pow_pos_nonneg; lia).
  rewrite Zdigits2_log2 by lia.
  rewrite (Z.log2_unique z (d - 1)); try lia.
  replace (Z.succ (d - 1)) with d by lia. assumption.
Qed.

Lemma Zdigits2_mul_pow2 (z k : Z) :
  0 < z -> 0 <= k -> Zdigits2 (z * 2 ^ k) = Zdigits2 z + k.
Proof.
  intros Hz Hk.
  assert (0 < z * 2 ^ k)
    by (apply Z.mul_pos_pos; [assumption | apply Z.pow_pos_nonneg; lia]).
  rewrite !Zdigits2_log2 by assumption. rewrite Z.log2_mul_pow2; lia.
Qed.

Lemma Zdigits2_pow2 (n : Z) : 0 <= n -> Zdigits2 (2 ^ n) = n + 1.
Proof.
  intros Hn. apply Zdigits2_unique; [|lia].
  replace (n + 1 - 1) with n by lia. split; [lia|].
  apply Z.pow_lt_mono_r; lia.
Qed.

Lemma Zdigits2_div_pow2 (m k : Z) :
  0 < m -> 0 <= k < Zdigits2 m ->
  0 < m / 2 ^ k /\ Zdigits2 (m / 2 ^ k) = Zdigits2 m - k.
Proof.
  intros Hm Hk. pose proof (Zdigits2_bounds m Hm) as [Hlo Hhi].
  assert (Hpk : 0 < 2 ^ k) by (apply Z.pow_pos_nonneg; lia).
  assert (H1 : 2 ^ (Zdigits2 m - k - 1) <= m / 2 ^ k).
  { apply Z.div_le_lower_bound; [assumption|].
    rewrite <- Z.pow_add_r by lia.
    replace (k + (Zdigits2 m - k - 1)) with (Zdigits2 m - 1) by lia.
    assumption. }
  assert (H2 : m / 2 ^ k < 2 ^ (Zdigits2 m - k)).
  { apply Z.div_lt_upper_bound; [assumption|].
    rewrite <- Z.pow_add_r by lia.
    replace (k + (Zdigits2 m - k)) with (Zdigits2 m) by lia.
    assumption. }
  assert (0 < 2 ^ (Zdigits2 m - k - 1)) by (apply Z.pow_pos_nonneg; lia).
  split; [lia|]. apply Zdigits2_unique; lia.
Qed.

(** The digits of a mantissa that rounding may have incremented. *)
Lemma Zdigits2_succ_cases (m m' : Z) :
  0 < m -> m <= m' <= m + 1 ->
  Zdigits2 m' = Zdigits2 m \/
  (Zdigits2 m' = Zdigits2 m + 1 /\ m' = 2 ^ Zdigits2 m).
Proof.
  intros Hm Hm'. pose proof (Zdigits2_bounds m Hm) as [Hlo Hhi].
  pose proof (Zdigits2_pos m Hm).
  destruct (Z.eq_dec m' (2 ^ Zdigits2 m)) as [E|NE].
  - right. split; [|assumption]. rewrite E. apply Zdigits2_pow2. lia.
  - left. apply Zdigits2_unique; lia.
Qed.

(** ** Shifting mantissas *)

Lemma iter_pos_iter {A : Type} (f : A -> A) (n : positive) (x : A) :
  iter_pos f n x = Pos.iter f x n.
Proof.
  revert x. induction n; intros x; simpl.
  - rewrite !IHn. rewrite <- !Pos.iter_swap. reflexivity.
  - rewrite !IHn. reflexivity.
  - reflexivity.
Qed.

Lemma iter_xO (m d : positive) : Zpos (Pos.iter xO m d) = Zpos m * 2 ^ Zpos d.
Proof.
  induction d using Pos.peano_ind.
  - simpl. lia.
  - rewrite Pos.iter_succ.
    rewrite Pos2Z.inj_xO, IHd, Pos2Z.inj_succ, Z.pow_succ_r by lia. lia.
Qed.

(** [shl_align] keeps the value and reaches the smaller exponent. *)
Lemma shl_align_spec (m : positive) (e e' : Z) :
  let '(m', e'') := shl_align m e e' in
  e'' = Z.min e e' /\ Zpos m' = Zpos m * 2 ^ (e - e'').
Proof.
  unfold shl_align. destruct (e' - e) as [|d|d] eqn:E.
  - split; [lia|]. rewrite Z.sub_diag. simpl. lia.
  - split; [lia|]. rewrite Z.sub_diag. simpl. lia.
  - split; [lia|]. rewrite iter_xO. f_equal. f_equal. lia.
Qed.

Lemma shl_align_fst (m : positive) (e e' : Z) :
  Zpos (fst (shl_align m e e')) = Zpos m * 2 ^ (e - Z.min e e').
Proof.
  pose proof (shl_align_spec m e e') as H.
  destruct (shl_align m e e') as [m' e'']. cbn [fst].
  destruct H as [-> ->]. reflexivity.
Qed.

Lemma shr_1_exact (m : Z) : 0 <= m -> shr_1 (exact_rec (2 * m)) = exact_rec m.
Proof. destruct m as [|p|p]; try lia; reflexivity. Qed.

(** Shifting out zero bits loses nothing. *)
Lemma iter_shr_exact (m : Z) (k : positive) :
  0 <= m -> iter_pos shr_1 k (exact_rec (m * 2 ^ Zpos k)) = exact_rec m.
Proof.
  intros Hm. rewrite iter_pos_iter. induction k using Pos.peano_ind.
  - replace (m * 2 ^ 1) with (2 * m) by lia. apply shr_1_exact; assumption.
  - rewrite Pos.iter_succ_r. rewrite Pos2Z.inj_succ, Z.pow_succ_r by lia.
    replace (m * (2 * 2 ^ Z.pos k)) with (2 * (m * 2 ^ Z.pos k)) by lia.
    rewrite shr_1_exact; [assumption|].
    apply Z.mul_nonneg_nonneg; [assumption | apply Z.pow_nonneg; lia].
Qed.

Lemma shr_1_fields (m : Z) (rb sb : bool) :
  0 <= m ->
  shr_1 {| shr_m := m; shr_r := rb; shr_s := sb |} =
  {| shr_m := m / 2; shr_r := Z.odd m; shr_s := rb || sb |}.
Proof.
  intros Hm. destruct m as [|[p|p|]|p]; try lia; cbn [shr_1]; f_equal.
  - rewrite Pos2Z.inj_xI. apply Z.div_unique with (r := 1); lia.
  - rewrite Pos2Z.inj_xO. apply Z.div_unique with (r := 0); lia.
Qed.

Lemma shr_1_m (r : shr_record) : 0 <= shr_m r -> shr_m (shr_1 r) = shr_m r / 2.
Proof.
  destruct r as [m b1 b2]. cbn [shr_m]. intros Hm.
  rewrite shr_1_fields by assumption. reflexivity.
Qed.

Lemma iter_shr_m (k : positive) (r : shr_record) :
  0 <= shr_m r -> shr_m (iter_pos shr_1 k r) = shr_m r / 2 ^ Zpos k.
Proof.
  intros Hm. rewrite iter_pos_iter. induction k using Pos.peano_ind.
  - simpl Pos.iter. rewrite shr_1_m by assumption. reflexivity.
  - rewrite Pos.iter_succ. rewrite shr_1_m.
    + rewrite IHk. rewrite Pos2Z.inj_succ, Z.pow_succ_r by lia.
      rewrite Z.div_div by (try apply Z.pow_pos_nonneg; lia). f_equal. lia.
    + rewrite IHk. apply Z.div_pos; [assumption | apply Z.pow_pos_nonneg; lia].
Qed.

(** The mantissa and exponent that [shr] returns. *)
Lemma shr_m_e (r : shr_record) (e n : Z) :
  0 <= shr_m r ->
  shr_m (fst (shr r e n)) = shr_m r / 2 ^ Z.max 0 n /\
  snd (shr r e n) = e + Z.max 0 n.
Proof.
  intros Hm. unfold shr. destruct n as [|p|p]; cbn [fst snd].
  - simpl. rewrite Z.div_1_r. lia.
  - rewrite iter_shr_m by assumption. rewrite Z.max_r by lia. lia.
  - rewrite Z.max_l by lia. simpl. rewrite Z.div_1_r. lia.
Qed.

Lemma shr_record_of_loc_m (m : Z) (l : location) :
  shr_m (shr_record_of_loc m l) = m.
Proof. destruct l as [|[]]; reflexivity. Qed.

Lemma loc_of_shr_record_of_loc (m : Z) (l : location) :
  loc_of_shr_record (shr_record_of_loc m l) = l.
Proof. destruct l as [|[]]; reflexivity. Qed.

Lemma round_nearest_even_bounds (m : Z) (l : location) :
  m <= round_nearest_even m l <= m + 1.
Proof. destruct l as [|[]]; cbn; try lia. destruct (Z.even m); lia. Qed.

(** ** Rounding *)

Lemma fmt_facts (fmt : Format) :
  1 < prec fmt <= 64 /\ 100 <= emax fmt - prec fmt /\
  3 - emax fmt - prec fmt <= - prec fmt - 100.
Proof. destruct fmt; cbn; lia. Qed.

Lemma shr_fexp_exact (pr em M k e : Z) :
  0 < M -> 0 <= k ->
  fexp pr em (Zdigits2 (M * 2 ^ k) + e) - e = k ->
  shr_fexp pr em (M * 2 ^ k) e loc_Exact = (exact_rec M, e + k).
Proof.
  intros HM Hk Hshift. unfold shr_fexp. rewrite Hshift.
  change (shr_record_of_loc (M * 2 ^ k) loc_Exact) with (exact_rec (M * 2 ^ k)).
  unfold shr. destruct k as [|p|p]; try lia.
  - rewrite Z.mul_1_r, Z.add_0_r. reflexivity.
  - rewrite iter_shr_exact by lia. reflexivity.
Qed.

(** Rounding a value that is representable returns it. *)
Lemma binary_round_aux_exact (pr em : Z) (s : bool) (M k e : Z) :
  0 < M -> 0 <= k ->
  fexp pr em (Zdigits2 M + k + e) = e + k ->
  e + k <= em - pr ->
  binary_round_aux pr em s (M * 2 ^ k) e loc_Exact =
  S754_finite s (Z.to_pos M) (e + k).
Proof.
  intros HM Hk Hcanon Hmax. unfold binary_round_aux.
  rewrite shr_fexp_exact; try assumption.
  2:{ rewrite Zdigits2_mul_pow2 by assumption. lia. }
  cbn [exact_rec shr_m loc_of_shr_record round_nearest_even].
  replace M with (M * 2 ^ 0) at 1 by (simpl; lia).
  rewrite shr_fexp_exact; try lia.
  2:{ rewrite Z.mul_1_r.
      replace (Zdigits2 M + (e + k)) with (Zdigits2 M + k + e) by lia. lia. }
  cbn [exact_rec shr_m]. rewrite Z.add_0_r.
  destruct M as [|p|p]; try lia.
  apply Z.leb_le in Hmax. rewrite Hmax. reflexivity.
Qed.

Lemma digits_range (fmt : Format) (N : Z) :
  0 < N < 2 ^ prec fmt -> 1 <= Zdigits2 N <= prec fmt.
Proof.
  intros HN. split; [apply Zdigits2_pos; lia|].
  pose proof (Zdigits2_bounds N ltac:(lia)) as [Hlo _].
  pose proof (fmt_facts fmt) as (Hpr & _).
  destruct (Z.le_gt_cases (Zdigits2 N) (prec fmt)) as [?|Hgt]; [assumption|].
  assert (2 ^ prec fmt <= 2 ^ (Zdigits2 N - 1))
    by (apply Z.pow_le_mono_r; lia).
  lia.
Qed.

Lemma canon_m_pos (fmt : Format) (N : Z) :
  0 < N < 2 ^ prec fmt -> 0 < canon_m (prec fmt) N.
Proof.
  intros HN. pose proof (digits_range fmt N HN).
  unfold canon_m. apply Z.mul_pos_pos; [lia | apply Z.pow_pos_nonneg; lia].
Qed.

Lemma canon_m_digits (fmt : Format) (N : Z) :
  0 < N < 2 ^ prec fmt -> Zdigits2 (canon_m (prec fmt) N) = prec fmt.
Proof.
  intros HN. pose proof (digits_range fmt N HN).
  unfold canon_m. rewrite Zdigits2_mul_pow2 by lia. lia.
Qed.

(** A mantissa and exponent that denote an integer of at most [prec] bits
    are normalised to the canonical representation of that integer. *)
Lemma binary_round_exact (fmt : Format) (s : bool) (m : positive) (e N : Z) :
  0 < N < 2 ^ prec fmt -> e <= 0 -> Zpos m = N * 2 ^ (- e) ->
  binary_round (prec fmt) (emax fmt) s m e =
  S754_finite s (Z.to_pos (canon_m (prec fmt) N)) (canon_e (prec fmt) N).
Proof.
  intros HN He Hm. unfold binary_round.
  pose proof (fmt_facts fmt) as (Hp & Hpe & Hemin).
  pose proof (digits_range fmt N HN) as HdN.
  assert (Hdm : Zpos (digits2_pos m) = Zdigits2 N - e).
  { change (Zpos (digits2_pos m)) with (Zdigits2 (Zpos m)). rewrite Hm.
    rewrite Zdigits2_mul_pow2 by lia. lia. }
  rewrite Hdm.
  replace (fexp (prec fmt) (emax fmt) (Zdigits2 N - e + e))
    with (Zdigits2 N - prec fmt) by (unfold fexp, emin; lia).
  pose proof (shl_align_spec m e (Zdigits2 N - prec fmt)) as Hal.
  destruct shl_align as [mz ez]. destruct Hal as [Hez Hmz].
  set (k := Zdigits2 N - prec fmt - ez).
  assert (Hk : 0 <= k) by (unfold k; lia).
  assert (Hmz' : Zpos mz = canon_m (prec fmt) N * 2 ^ k).
  { rewrite Hmz, Hm. unfold canon_m, k.
    rewrite <- !Z.mul_assoc, <- !Z.pow_add_r by lia.
    f_equal. f_equal. lia. }
  pose proof (canon_m_pos fmt N HN) as HM.
  pose proof (canon_m_digits fmt N HN) as HdM.
  rewrite Hmz'.
  replace (canon_e (prec fmt) N) with (ez + k) by (unfold canon_e, k; lia).
  apply binary_round_aux_exact; try assumption.
  - rewrite HdM. unfold fexp, emin, k. lia.
  - unfold k. lia.
Qed.

(** Away from the subnormal and the overflow range, rounding a positive
    mantissa yields a finite number of the same sign. *)
Lemma binary_round_aux_finite (pr em : Z) (s : bool) (m : positive) (e : Z)
  (l : location) :
  1 <= pr ->
  3 - em - pr <= Zdigits2 (Zpos m) + e - pr ->
  Z.max e (Zdigits2 (Zpos m) + e - pr) + 1 <= em - pr ->
  exists m' e', binary_round_aux pr em s (Zpos m) e l = S754_finite s m' e'.
Proof.
  intros Hpr Hmin Hmax. unfold binary_round_aux, shr_fexp.
  set (d := Zdigits2 (Zpos m)) in *.
  assert (Hd : 1 <= d) by (apply Zdigits2_pos; lia).
  replace (fexp pr em (d + e) - e) with (d - pr) by (unfold fexp, emin; lia).
  pose proof (shr_m_e (shr_record_of_loc (Zpos m) l) e (d - pr)) as Hs1.
  rewrite shr_record_of_loc_m in Hs1. specialize (Hs1 ltac:(lia)).
  destruct (shr (shr_record_of_loc (Zpos m) l) e (d - pr)) as [r1 e1].
  cbn [fst snd] in Hs1. destruct Hs1 as [Hm0 He1].
  pose proof (Zdigits2_div_pow2 (Zpos m) (Z.max 0 (d - pr))
                ltac:(lia) ltac:(fold d; lia)) as [Hpos0 Hd0].
  fold d in Hd0. rewrite <- Hm0 in Hpos0, Hd0.
  pose proof (round_nearest_even_bounds (shr_m r1) (loc_of_shr_record r1))
    as Hrb.
  set (M1 := round_nearest_even (shr_m r1) (loc_of_shr_record r1)) in *.
  pose proof (Zdigits2_succ_cases (shr_m r1) M1 Hpos0 Hrb) as Hd1.
  change (shr_record_of_loc M1 loc_Exact) with (exact_rec M1).
  assert (Hk2 : fexp pr em (Zdigits2 M1 + e1) - e1 = Zdigits2 M1 - pr)
    by (unfold fexp, emin; lia).
  rewrite Hk2.
  pose proof (shr_m_e (exact_rec M1) e1 (Zdigits2 M1 - pr)) as Hs2.
  cbn [exact_rec shr_m] in Hs2. specialize (Hs2 ltac:(lia)).
  destruct (shr (exact_rec M1) e1 (Zdigits2 M1 - pr)) as [r2 e2].
  cbn [fst snd] in Hs2. destruct Hs2 as [Hm2 He2].
  assert (Hpos2 : 0 < shr_m r2).
  { rewrite Hm2. apply (Zdigits2_div_pow2 M1); lia. }
  assert (He2' : e2 <= em - pr) by lia.
  destruct (shr_m r2) as [|p2|p2]; try lia.
  apply Z.leb_le in He2'. rewrite He2'. eauto.
Qed.

(** ** Rounding a quotient *)

Lemma div_eucl_div_mod (a b : Z) : Z.div_eucl a b = (a / b, a mod b).
Proof. unfold Z.div, Z.modulo. destruct (Z.div_eucl a b); reflexivity. Qed.

Lemma div_eucl_exact (a b : Z) : 0 < b -> Z.div_eucl (b * a) b = (a, 0).
Proof.
  intros Hb. rewrite div_eucl_div_mod. f_equal.
  - rewrite Z.mul_comm. apply Z.div_mul. lia.
  - rewrite Z.mul_comm. apply Z.mod_mul. lia.
Qed.

Lemma new_location_0 (n : Z) : new_location n 0 = loc_Exact.
Proof. unfold new_location. destruct (Z.even n); reflexivity. Qed.

(** Where the remainder [r] of a division by [b] lies with respect to the
    half of [b]. *)
Lemma new_location_spec (b r : Z) :
  0 < b -> 0 <= r < b ->
  new_location b r = if r =? 0 then loc_Exact else loc_Inexact (2 * r ?= b).
Proof.
  intros Hb Hr. unfold new_location, new_location_even, new_location_odd.
  destruct (Z.even b) eqn:Ev; [reflexivity|].
  destruct (r =? 0); [reflexivity|]. f_equal.
  assert (Hodd : Z.odd b = true) by (rewrite <- Z.negb_even, Ev; reflexivity).
  apply Z.odd_spec in Hodd. destruct Hodd as [c Hc].
  destruct (Z.compare_spec (2 * r + 1) b), (Z.compare_spec (2 * r) b);
    try reflexivity; lia.
Qed.

Lemma round_new_location (a b : Z) :
  0 < b -> round_nearest_even (a / b) (new_location b (a mod b)) = rne a b.
Proof.
  intros Hb. pose proof (Z.mod_pos_bound a b Hb) as Hr.
  rewrite new_location_spec by assumption. unfold rne.
  destruct (Z.eqb_spec (a mod b) 0) as [E|NE].
  - rewrite E. cbn [round_nearest_even].
    replace (2 * 0 ?= b) with Lt by (symmetry; apply Z.compare_lt_iff; lia).
    reflexivity.
  - cbn [round_nearest_even]. destruct (2 * (a mod b) ?= b); reflexivity.
Qed.

(** One more bit shifted out: the quotient by [2 * b], rounded. *)
Lemma round_shr_1 (a b : Z) :
  0 <= a -> 0 < b ->
  let r1 := shr_1 (shr_record_of_loc (a / b) (new_location b (a mod b))) in
  round_nearest_even (shr_m r1) (loc_of_shr_record r1) = rne a (b * 2).
Proof.
  intros Ha Hb. pose proof (Z.mod_pos_bound a b Hb) as Hr.
  assert (Hq : 0 <= a / b) by (apply Z.div_pos; lia).
  cbv zeta. rewrite new_location_spec by assumption.
  unfold rne. rewrite <- Z.div_div by lia. rewrite Z.rem_mul_r by lia.
  rewrite Zmod_odd.
  destruct (Z.eqb_spec (a mod b) 0) as [R0|R1];
    cbn [shr_record_of_loc]; [|destruct (2 * (a mod b) ?= b)];
    rewrite shr_1_fields by assumption;
    cbn [shr_m orb loc_of_shr_record]; destruct (Z.odd (a / b));
    cbn [loc_of_shr_record round_nearest_even].
  all: try (replace (2 * (a mod b + b * 1) ?= b * 2) with Gt
              by (symmetry; apply Z.compare_gt_iff; lia); reflexivity).
  all: try (replace (2 * (a mod b + b * 0) ?= b * 2) with Lt
              by (symmetry; apply Z.compare_lt_iff; lia); reflexivity).
  replace (2 * (a mod b + b * 1) ?= b * 2) with Eq
    by (symmetry; apply Z.compare_eq_iff; lia).
  reflexivity.
Qed.

Lemma rne_bounds (a b : Z) : 0 < b -> a / b <= rne a b <= a / b + 1.
Proof.
  intros Hb. unfold rne. destruct (2 * (a mod b) ?= b); try lia.
  destruct (Z.even (a / b)); lia.
Qed.

(** How a rounded quotient compares with an integer [c]: the quotient is
    compared with the mid-point above [c], which a tie reaches when [c] is
    odd. *)
Lemma rne_gt (a b c : Z) :
  0 < b ->
  (c < rne a b <->
   if Z.odd c then (2 * c + 1) * b <= 2 * a else (2 * c + 1) * b < 2 * a).
Proof.
  intros Hb. pose proof (Z.mod_pos_bound a b Hb) as Hr.
  pose proof (Z.div_mod a b ltac:(lia)) as Ha.
  unfold rne. set (q := a / b) in *. set (r := a mod b) in *.
  rewrite <- (Z.negb_even c).
  destruct (Z.compare_spec (2 * r) b) as [E|L|G].
  - destruct (Z.even q) eqn:Eq, (Z.even c) eqn:Ec; cbn [negb];
      try (apply Z.even_spec in Eq; destruct Eq as [q' Eq]);
      try (apply Z.even_spec in Ec; destruct Ec as [c' Ec]);
      try (rewrite <- Z.negb_odd in Eq;
           apply negb_false_iff, Z.odd_spec in Eq; destruct Eq as [q' Eq]);
      try (rewrite <- Z.negb_odd in Ec;
           apply negb_false_iff, Z.odd_spec in Ec; destruct Ec as [c' Ec]);
      split; intros H; nia.
  - destruct (Z.even c); cbn [negb]; split; intros H; nia.
  - destruct (Z.even c); cbn [negb]; split; intros H; nia.
Qed.

Lemma scaled_le (x y w : Z) : 0 < w -> (x * w <= y * w <-> x <= y).
Proof. intros Hw. symmetry. apply Z.mul_le_mono_pos_r; assumption. Qed.

Lemma scaled_lt (x y w : Z) : 0 < w -> (x * w < y * w <-> x < y).
Proof. intros Hw. symmetry. apply Z.mul_lt_mono_pos_r; assumption. Qed.

(** The same comparison when dividend and divisor share a factor [w]. *)
Lemma rne_scaled_gt (c n p w k4 a b : Z) :
  0 < w -> 0 < p -> 2 * a = (k4 * n) * w -> b = p * w ->
  (c < rne a b <->
   if Z.odd c then (2 * c + 1) * p <= k4 * n else (2 * c + 1) * p < k4 * n).
Proof.
  intros Hw Hp Ha Hb.
  assert (Hbpos : 0 < b) by (subst b; apply Z.mul_pos_pos; assumption).
  rewrite (rne_gt a b c Hbpos), Ha, Hb.
  replace ((2 * c + 1) * (p * w)) with ((2 * c + 1) * p * w) by ring.
  destruct (Z.odd c); [apply scaled_le | apply scaled_lt]; assumption.
Qed.

(** The last step of [binary_round_aux]: a mantissa of [pr] bits is kept,
    the mantissa [2^pr] is renormalised. *)
Lemma binary_round_aux_tail (pr em : Z) (s : bool) (M e : Z) :
  1 <= pr -> 2 ^ (pr - 1) <= M <= 2 ^ pr ->
  3 - em - pr <= e -> e + 1 <= em - pr ->
  (let '(mrs'', e'') := shr_fexp pr em M e loc_Exact in
   match shr_m mrs'' with
   | 0 => S754_zero s
   | Zpos m => if e'' <=? em - pr then S754_finite s m e'' else S754_infinity s
   | Zneg _ => S754_nan
   end) =
  if M <? 2 ^ pr then S754_finite s (Z.to_pos M) e
  else S754_finite s (Z.to_pos (2 ^ (pr - 1))) (e + 1).
Proof.
  intros Hpr HM Hmin Hmax.
  assert (Hpos : 0 < 2 ^ (pr - 1)) by (apply Z.pow_pos_nonneg; lia).
  destruct (Z.ltb_spec M (2 ^ pr)) as [Hlt|Hge].
  - assert (Hd : Zdigits2 M = pr) by (apply Zdigits2_unique; lia).
    replace M with (M * 2 ^ 0) at 1 by (simpl; lia).
    rewrite shr_fexp_exact; try lia.
    2:{ rewrite Z.mul_1_r, Hd. unfold fexp, emin. lia. }
    cbn [exact_rec shr_m]. rewrite Z.add_0_r.
    destruct M as [|p|p]; try lia.
    replace (e <=? em - pr) with true by (symmetry; apply Z.leb_le; lia).
    reflexivity.
  - assert (HM' : M = 2 ^ (pr - 1) * 2 ^ 1).
    { rewrite <- Z.pow_add_r by lia. replace (pr - 1 + 1) with pr by lia. lia. }
    rewrite HM' at 1.
    rewrite shr_fexp_exact; try lia.
    2:{ rewrite <- HM'. replace M with (2 ^ pr) by lia.
        rewrite Zdigits2_pow2 by lia. unfold fexp, emin. lia. }
    cbn [exact_rec shr_m].
    destruct (2 ^ (pr - 1)) as [|p|p]; try lia.
    replace (e + 1 <=? em - pr) with true by (symmetry; apply Z.leb_le; lia).
    reflexivity.
Qed.

(** Rounding the quotient [a / b] of [pr + k] bits, [k] being 0 or 1, with
    the location that the remainder gives. *)
Lemma binary_round_aux_quot (pr em : Z) (s : bool) (a b e k : Z) :
  0 <= a -> 0 < b -> k = 0 \/ k = 1 -> 1 <= pr ->
  Zdigits2 (a / b) = pr + k ->
  3 - em - pr <= e + k -> e + k + 1 <= em - pr ->
  binary_round_aux pr em s (a / b) e (new_location b (a mod b)) =
  if rne a (b * 2 ^ k) <? 2 ^ pr
  then S754_finite s (Z.to_pos (rne a (b * 2 ^ k))) (e + k)
  else S754_finite s (Z.to_pos (2 ^ (pr - 1))) (e + k + 1).
Proof.
  intros Ha Hb Hk Hpr Hd Hmin Hmax. unfold binary_round_aux.
  assert (Hq : 0 < a / b).
  { destruct (Z.lt_total 0 (a / b)) as [?|[E|L]]; [assumption| |].
    - rewrite <- E in Hd. cbn in Hd. lia.
    - pose proof (Z.div_pos a b Ha Hb). lia. }
  set (rec0 := shr_record_of_loc (a / b) (new_location b (a mod b))).
  assert (Hfirst : shr_fexp pr em (a / b) e (new_location b (a mod b)) =
                   (if k =? 0 then rec0 else shr_1 rec0, e + k)).
  { unfold shr_fexp. rewrite Hd.
    replace (fexp pr em (pr + k + e) - e) with k by (unfold fexp, emin; lia).
    destruct Hk; subst k; cbn [shr Z.eqb iter_pos]; rewrite ?Z.add_0_r;
      reflexivity. }
  rewrite Hfirst.
  assert (Hround :
    round_nearest_even (shr_m (if k =? 0 then rec0 else shr_1 rec0))
      (loc_of_shr_record (if k =? 0 then rec0 else shr_1 rec0)) =
    rne a (b * 2 ^ k)).
  { destruct Hk; subst k; cbn [Z.eqb]; unfold rec0.
    - rewrite shr_record_of_loc_m, loc_of_shr_record_of_loc, Z.mul_1_r.
      apply round_new_location; assumption.
    - apply round_shr_1; assumption. }
  rewrite Hround.
  assert (Hbk : 0 < b * 2 ^ k) by (destruct Hk; subst k; lia).
  pose proof (rne_bounds a (b * 2 ^ k) Hbk) as HM.
  assert (Hdk : 0 < a / (b * 2 ^ k) /\ Zdigits2 (a / (b * 2 ^ k)) = pr).
  { rewrite <- Z.div_div by (destruct Hk; subst k; lia).
    pose proof (Zdigits2_div_pow2 (a / b) k Hq ltac:(lia)) as [H1 H2].
    split; [assumption|lia]. }
  destruct Hdk as [Hqk Hdk].
  pose proof (Zdigits2_bounds _ Hqk) as Hbnd. rewrite Hdk in Hbnd.
  apply binary_round_aux_tail; lia.
Qed.

(** ** Conversion, subtraction, division and comparison of doubles *)

Lemma of_ulong_0 (fmt : Format) : Double.of_ulong fmt 0 = S754_zero false.
Proof. reflexivity. Qed.

(** Every positive [unsigned long] converts to a positive finite double. *)
Lemma of_ulong_finite (fmt : Format) (p : Z) :
  0 < p < ULONG_WIDEST ->
  exists m e, Double.of_ulong fmt p = S754_finite false m e.
Proof.
  unfold ULONG_WIDEST. intros Hp. unfold Double.of_ulong, binary_normalize.
  destruct p as [|q|q]; try lia. unfold binary_round.
  pose proof (fmt_facts fmt) as (Hpr & Hpe & Hemin).
  assert (Hd : 1 <= Zdigits2 (Zpos q) <= 64).
  { split; [apply Zdigits2_pos; lia|].
    pose proof (Zdigits2_bounds (Zpos q) ltac:(lia)) as [Hlo _].
    destruct (Z.le_gt_cases (Zdigits2 (Zpos q)) 64) as [?|Hgt]; [assumption|].
    assert (2 ^ 64 <= 2 ^ (Zdigits2 (Zpos q) - 1))
      by (apply Z.pow_le_mono_r; lia).
    lia. }
  match goal with |- context [shl_align q 0 ?x] =>
    pose proof (shl_align_spec q 0 x) as Hal;
    destruct (shl_align q 0 x) as [mz ez] end.
  destruct Hal as [Hez Hmz].
  assert (Hdz : Zdigits2 (Zpos mz) = Zdigits2 (Zpos q) - ez).
  { rewrite Hmz. rewrite Zdigits2_mul_pow2 by lia. lia. }
  apply binary_round_aux_finite; rewrite ?Hdz; lia.
Qed.

(** An integer of at most [prec] bits converts without rounding. *)
Lemma of_ulong_exact (fmt : Format) (n : Z) :
  0 < n < 2 ^ prec fmt -> Double.of_ulong fmt n = canon_float fmt n.
Proof.
  intros Hn. unfold Double.of_ulong, binary_normalize.
  destruct n as [|q|q]; try lia.
  apply binary_round_exact; simpl; lia.
Qed.

(** The difference of two such integers is computed without rounding. *)
Lemma sub_exact (fmt : Format) (a p : Z) :
  0 < a < 2 ^ prec fmt -> 0 < p < 2 ^ prec fmt ->
  Double.sub fmt (Double.of_ulong fmt a) (Double.of_ulong fmt p) =
  if a =? p then S754_zero false
  else S754_finite (a <? p) (Z.to_pos (canon_m (prec fmt) (Z.abs (a - p))))
                   (canon_e (prec fmt) (Z.abs (a - p))).
Proof.
  intros Ha Hp. rewrite !of_ulong_exact by assumption.
  unfold canon_float, Double.sub, SFsub. cbn [cond_Zopp].
  rewrite !shl_align_fst.
  pose proof (canon_m_pos fmt a Ha) as Hma.
  pose proof (canon_m_pos fmt p Hp) as Hmp.
  rewrite !Z2Pos.id by assumption.
  pose proof (digits_range fmt a Ha) as Hda.
  pose proof (digits_range fmt p Hp) as Hdp.
  set (ez := Z.min (canon_e (prec fmt) a) (canon_e (prec fmt) p)).
  assert (Hez : ez <= 0) by (unfold ez, canon_e; lia).
  assert (Hval : canon_m (prec fmt) a * 2 ^ (canon_e (prec fmt) a - ez)
               - canon_m (prec fmt) p * 2 ^ (canon_e (prec fmt) p - ez)
               = (a - p) * 2 ^ (- ez)).
  { unfold canon_m.
    rewrite <- !Z.mul_assoc, <- !Z.pow_add_r by (unfold ez, canon_e; lia).
    replace (prec fmt - Zdigits2 a + (canon_e (prec fmt) a - ez)) with (- ez)
      by (unfold canon_e; lia).
    replace (prec fmt - Zdigits2 p + (canon_e (prec fmt) p - ez)) with (- ez)
      by (unfold canon_e; lia).
    lia. }
  replace (Z.min (canon_e (prec fmt) a) ez) with ez by (unfold ez; lia).
  replace (Z.min (canon_e (prec fmt) p) ez) with ez by (unfold ez; lia).
  rewrite Hval.
  assert (Hpow : 0 < 2 ^ (- ez)) by (apply Z.pow_pos_nonneg; lia).
  unfold binary_normalize.
  destruct (Z.eqb_spec a p) as [E|NE].
  - subst p. rewrite Z.sub_diag. reflexivity.
  - destruct ((a - p) * 2 ^ (- ez)) as [|v|v] eqn:Ev.
    + nia.
    + assert (p < a) by nia.
      replace (a <? p) with false by (symmetry; apply Z.ltb_ge; lia).
      apply binary_round_exact; lia.
    + assert (a < p) by nia.
      replace (a <? p) with true by (symmetry; apply Z.ltb_lt; lia).
      apply binary_round_exact; lia.
Qed.

(** The difference of a finite double with itself is [+0]. *)
Lemma sub_self (fmt : Format) (s : bool) (m : positive) (e : Z) :
  Double.sub fmt (S754_finite s m e) (S754_finite s m e) = S754_zero false.
Proof. unfold Double.sub, SFsub. rewrite Z.sub_diag. reflexivity. Qed.

(** A finite double divided by itself is one. *)
Lemma div_self (fmt : Format) (m : positive) (e : Z) :
  Double.div fmt (S754_finite false m e) (S754_finite false m e) =
  Double.one fmt.
Proof.
  unfold Double.div, SFdiv, SFdiv_core_binary.
  rewrite !Z.sub_diag.
  replace (Z.min (fexp (prec fmt) (emax fmt) 0) 0) with (- prec fmt)
    by (destruct fmt; reflexivity).
  replace (0 - - prec fmt) with (prec fmt) by lia.
  replace (match prec fmt with
           | 0 => Z.pos m
           | Z.pos _ => Z.shiftl (Z.pos m) (prec fmt)
           | Z.neg _ => 0
           end)
    with (Z.pos m * 2 ^ prec fmt)
    by (rewrite <- Z.shiftl_mul_pow2 by (destruct fmt; cbn; lia);
        destruct fmt; reflexivity).
  rewrite div_eucl_exact by lia. rewrite new_location_0.
  destruct fmt; reflexivity.
Qed.

Lemma SFdiv_core_binary_normal (fmt : Format) (m1 e1 m2 e2 : Z) :
  Zdigits2 m1 = prec fmt -> Zdigits2 m2 = prec fmt ->
  -64 <= e1 - e2 <= 64 ->
  SFdiv_core_binary (prec fmt) (emax fmt) m1 e1 m2 e2 =
  (m1 * 2 ^ prec fmt / m2, e1 - e2 - prec fmt,
   new_location m2 ((m1 * 2 ^ prec fmt) mod m2)).
Proof.
  intros H1 H2 He. unfold SFdiv_core_binary. rewrite H1, H2.
  pose proof (fmt_facts fmt) as (Hpr & Hpe & Hemin).
  replace (Z.min (fexp (prec fmt) (emax fmt)
                    (prec fmt + e1 - (prec fmt + e2))) (e1 - e2))
    with (e1 - e2 - prec fmt) by (unfold fexp, emin; lia).
  replace (e1 - e2 - (e1 - e2 - prec fmt)) with (prec fmt) by lia.
  replace (match prec fmt with
           | 0 => m1
           | Z.pos _ => Z.shiftl m1 (prec fmt)
           | Z.neg _ => 0
           end)
    with (m1 * 2 ^ prec fmt)
    by (rewrite <- Z.shiftl_mul_pow2 by lia; destruct fmt; reflexivity).
  rewrite div_eucl_div_mod. reflexivity.
Qed.

(** The quotient of two positive normal doubles is the rounded quotient of
    their mantissas. *)
Lemma div_normal (fmt : Format) (sx sy : bool) (m1 : positive) (e1 : Z)
  (m2 : positive) (e2 : Z) :
  Zdigits2 (Zpos m1) = prec fmt -> Zdigits2 (Zpos m2) = prec fmt ->
  -64 <= e1 - e2 <= 64 ->
  let k := quot_shift (Zpos m1) (Zpos m2) in
  let M := rne (Zpos m1 * 2 ^ prec fmt) (Zpos m2 * 2 ^ k) in
  Double.div fmt (S754_finite sx m1 e1) (S754_finite sy m2 e2) =
  if M <? 2 ^ prec fmt
  then S754_finite (xorb sx sy) (Z.to_pos M) (e1 - e2 - prec fmt + k)
  else S754_finite (xorb sx sy) (Z.to_pos (2 ^ (prec fmt - 1)))
                   (e1 - e2 - prec fmt + k + 1).
Proof.
  intros H1 H2 He k M. unfold Double.div, SFdiv.
  rewrite SFdiv_core_binary_normal by assumption.
  pose proof (fmt_facts fmt) as (Hpr & Hpe & Hemin).
  pose proof (Zdigits2_bounds (Zpos m1) ltac:(lia)) as B1. rewrite H1 in B1.
  pose proof (Zdigits2_bounds (Zpos m2) ltac:(lia)) as B2. rewrite H2 in B2.
  assert (Hpow : 2 ^ prec fmt = 2 * 2 ^ (prec fmt - 1)).
  { rewrite <- Z.pow_succ_r by lia. f_equal. lia. }
  assert (Hpp : 0 < 2 ^ (prec fmt - 1)) by (apply Z.pow_pos_nonneg; lia).
  assert (Hk : k = 0 \/ k = 1)
    by (unfold k, quot_shift; destruct (Z.pos m2 <=? Z.pos m1); lia).
  apply binary_round_aux_quot; try lia.
  apply Zdigits2_unique; [|lia].
  unfold k, quot_shift. destruct (Z.leb_spec (Zpos m2) (Zpos m1)) as [Hle|Hlt].
  - replace (prec fmt + 1 - 1) with (prec fmt) by lia. split.
    + apply Z.div_le_lower_bound; [lia|]. nia.
    + apply Z.div_lt_upper_bound; [lia|]. rewrite Z.pow_add_r by lia. nia.
  - rewrite Z.add_0_r. split.
    + apply Z.div_le_lower_bound; [lia|]. nia.
    + apply Z.div_lt_upper_bound; [lia|]. nia.
Qed.

(** The deviation of turn times of at most [prec] bits: an exactly
    represented difference divided by an exactly represented turn time. *)
Lemma relative_deviation_exact (fmt : Format) (a p : Z) :
  0 <= a < 2 ^ prec fmt -> 0 < p < 2 ^ prec fmt ->
  relative_deviation fmt a p =
  if a =? p then S754_zero false
  else Double.div fmt (canon_float fmt (Z.abs (a - p))) (canon_float fmt p).
Proof.
  intros Ha Hp. unfold relative_deviation.
  destruct (Z.eq_dec a 0) as [->|Ha0].
  - rewrite of_ulong_0, (of_ulong_exact fmt p Hp).
    replace (0 =? p) with false by (symmetry; apply Z.eqb_neq; lia).
    replace (Z.abs (0 - p)) with p by lia. reflexivity.
  - rewrite sub_exact by lia. rewrite (of_ulong_exact fmt p Hp).
    destruct (a =? p); reflexivity.
Qed.

Lemma SFcompare_finite_pos (m : positive) (e : Z) (m' : positive) (e' : Z) :
  SFcompare (S754_finite false m e) (S754_finite false m' e') =
  Some match e ?= e' with
       | Lt => Lt
       | Gt => Gt
       | Eq => Zpos m ?= Zpos m'
       end.
Proof. reflexivity. Qed.

(** ** The threshold *)

Lemma THRESHOLD_value (fmt : Format) :
  RELATIVE_INHIBITION_THRESHOLD fmt =
  S754_finite false (Z.to_pos (THRESHOLD_m fmt)) (- prec fmt - 3).
Proof. destruct fmt; vm_compute; reflexivity. Qed.

(** The threshold is the double nearest to [8 / 100]: that quotient lies
    strictly between the two mid-points around it. *)
Lemma THRESHOLD_nearest (fmt : Format) :
  (2 * THRESHOLD_m fmt - 1) * 100 < 8 * 2 ^ (prec fmt + 4)
  /\ 8 * 2 ^ (prec fmt + 4) < (2 * THRESHOLD_m fmt + 1) * 100.
Proof. fmt_cases fmt; lia. Qed.

Lemma THRESHOLD_m_range (fmt : Format) :
  2 ^ (prec fmt - 1) < THRESHOLD_m fmt < 2 ^ prec fmt /\
  Z.odd (2 ^ prec fmt - 1) = true.
Proof. fmt_cases fmt; split; (lia || reflexivity). Qed.

Lemma exact_range_facts (fmt : Format) :
  0 < exact_range fmt <= 2 ^ (prec fmt - 1) /\
  2 ^ prec fmt = 2 * 2 ^ (prec fmt - 1).
Proof. fmt_cases fmt; lia. Qed.

Lemma one_gt_THRESHOLD (fmt : Format) :
  Double.gt (Double.one fmt) (RELATIVE_INHIBITION_THRESHOLD fmt) = true.
Proof. destruct fmt; vm_compute; reflexivity. Qed.

Lemma THRESHOLD_not_above_itself (fmt : Format) :
  Double.gt (RELATIVE_INHIBITION_THRESHOLD fmt)
            (RELATIVE_INHIBITION_THRESHOLD fmt) = false.
Proof. destruct fmt; vm_compute; reflexivity. Qed.


(** In range, the mid-points around the threshold separate the quotients of
    integers as [8 / 100] does. *)
Lemma midpoint_above_iff (fmt : Format) (n p : Z) :
  0 < n -> 0 < p < exact_range fmt ->
  ((if Z.odd (THRESHOLD_m fmt)
    then (2 * THRESHOLD_m fmt + 1) * p <= 2 ^ (prec fmt + 4) * n
    else (2 * THRESHOLD_m fmt + 1) * p < 2 ^ (prec fmt + 4) * n)
   <-> 2 * p < 25 * n).
Proof. intros Hn Hp. fmt_cases fmt; lia. Qed.

Lemma midpoint_below_iff (fmt : Format) (n p : Z) :
  0 < n -> 0 < p < exact_range fmt ->
  ((if Z.odd (THRESHOLD_m fmt - 1)
    then (2 * (THRESHOLD_m fmt - 1) + 1) * p <= 2 ^ (prec fmt + 4) * n
    else (2 * (THRESHOLD_m fmt - 1) + 1) * p < 2 ^ (prec fmt + 4) * n)
   <-> 2 * p <= 25 * n).
Proof.
  intros Hn Hp.
  fmt_cases fmt;
    cbn [Z.sub Z.add Z.opp Z.pos_sub Z.odd Pos.pred_double]; lia.
Qed.

Lemma carry_implies (fmt : Format) (n p : Z) :
  0 < n -> 0 < p ->
  (2 * (2 ^ prec fmt - 1) + 1) * p <= 2 ^ (prec fmt + 4) * n ->
  2 * p < 25 * n.
Proof. intros Hn Hp. fmt_cases fmt; lia. Qed.

(** ** The quotient of two in-range integers against the threshold *)

Section QuotientAgainstThreshold.

Variable fmt : Format.
Variables n p : Z.
Hypothesis Hn : 0 < n < exact_range fmt.
Hypothesis Hp : 0 < p < exact_range fmt.

Let pr := prec fmt.
Let dn := Zdigits2 n.
Let dp := Zdigits2 p.
Let m1 := canon_m pr n.
Let m2 := canon_m pr p.
Let k := quot_shift m1 m2.
Let M := rne (m1 * 2 ^ pr) (m2 * 2 ^ k).

Lemma in_range_facts :
  1 < pr /\ 2 ^ pr = 2 * 2 ^ (pr - 1) /\ 0 < 2 ^ (pr - 1) /\
  0 < n < 2 ^ (pr - 1) /\ 0 < p < 2 ^ (pr - 1).
Proof.
  unfold pr. pose proof (fmt_facts fmt) as (H & _).
  pose proof (exact_range_facts fmt) as (HR & Hpow).
  repeat split; lia.
Qed.

Lemma in_range_digits (N : Z) :
  0 < N < 2 ^ (pr - 1) ->
  1 <= Zdigits2 N <= pr - 1 /\ 2 ^ (Zdigits2 N - 1) <= N < 2 ^ Zdigits2 N.
Proof.
  intros HN. pose proof in_range_facts as (Hpr & _).
  pose proof (Zdigits2_bounds N ltac:(lia)) as B. split; [|assumption].
  split; [apply Zdigits2_pos; lia|].
  destruct (Z.le_gt_cases (Zdigits2 N) (pr - 1)) as [?|Hgt]; [assumption|].
  assert (2 ^ (pr - 1) <= 2 ^ (Zdigits2 N - 1))
    by (apply Z.pow_le_mono_r; lia).
  lia.
Qed.

Lemma quot_shift_cases : (k = 1 /\ m2 <= m1) \/ (k = 0 /\ m1 < m2).
Proof.
  unfold k, quot_shift.
  destruct (Z.leb_spec m2 m1); [left | right]; split; lia.
Qed.

(** The mantissas compare as the integers do once the digits are known. *)
Lemma mantissas_compare (j : Z) :
  0 <= j -> dn - dp = - j -> (m2 <= m1 <-> p <= 2 ^ j * n).
Proof.
  intros Hj Hd. pose proof in_range_facts as (_ & _ & _ & Hn' & Hp').
  pose proof (in_range_digits n Hn') as [Hdn _].
  pose proof (in_range_digits p Hp') as [Hdp _].
  unfold m1, m2, canon_m. fold dn dp in Hdn, Hdp |- *.
  replace (pr - dn) with (j + (pr - dp)) by lia.
  rewrite Z.pow_add_r by lia.
  replace (n * (2 ^ j * 2 ^ (pr - dp))) with (2 ^ j * n * 2 ^ (pr - dp))
    by ring.
  apply scaled_le. apply Z.pow_pos_nonneg; lia.
Qed.

(** In the binade of the threshold, the rounded mantissa is compared as the
    exact quotient [2^(pr+3) * n / p] is. *)
Lemma mantissa_test (c : Z) :
  dn - dp + k = -3 ->
  (c < M <->
   if Z.odd c then (2 * c + 1) * p <= 2 ^ (pr + 4) * n
   else (2 * c + 1) * p < 2 ^ (pr + 4) * n).
Proof.
  intros Hd. pose proof in_range_facts as (Hpr & _ & _ & Hn' & Hp').
  pose proof (in_range_digits n Hn') as [Hdn _].
  pose proof (in_range_digits p Hp') as [Hdp _].
  fold dn in Hdn. fold dp in Hdp.
  assert (Hk : 0 <= k) by (destruct quot_shift_cases as [[-> _]|[-> _]]; lia).
  unfold M. apply rne_scaled_gt with (w := 2 ^ (pr - dp) * 2 ^ k).
  - apply Z.mul_pos_pos; apply Z.pow_pos_nonneg; lia.
  - lia.
  - unfold m1, canon_m. fold dn.
    replace (pr - dn) with (3 + (pr - dp) + k) by lia.
    rewrite !Z.pow_add_r by lia.
    change (2 ^ 3) with 8. change (2 ^ 4) with 16. ring.
  - unfold m2, canon_m. fold dp. ring.
Qed.

Lemma rounded_mantissa_bounds : 2 ^ (pr - 1) <= M <= 2 ^ pr.
Proof.
  pose proof in_range_facts as (Hpr & Hpow & Hpp & Hn' & Hp').
  assert (Hd1 : Zdigits2 m1 = pr) by (apply canon_m_digits; fold pr; lia).
  assert (Hd2 : Zdigits2 m2 = pr) by (apply canon_m_digits; fold pr; lia).
  assert (H1 : 0 < m1) by (apply canon_m_pos; fold pr; lia).
  assert (H2 : 0 < m2) by (apply canon_m_pos; fold pr; lia).
  pose proof (Zdigits2_bounds m1 H1) as B1. rewrite Hd1 in B1.
  pose proof (Zdigits2_bounds m2 H2) as B2. rewrite Hd2 in B2.
  assert (Hb : 0 < m2 * 2 ^ k)
    by (destruct quot_shift_cases as [[-> _]|[-> _]]; lia).
  pose proof (rne_bounds (m1 * 2 ^ pr) (m2 * 2 ^ k) Hb) as HM. fold M in HM.
  assert (2 ^ (pr - 1) <= m1 * 2 ^ pr / (m2 * 2 ^ k) < 2 ^ pr); [|lia].
  split.
  - apply Z.div_le_lower_bound; [assumption|].
    destruct quot_shift_cases as [[-> ?]|[-> ?]]; nia.
  - apply Z.div_lt_upper_bound; [assumption|].
    destruct quot_shift_cases as [[-> ?]|[-> ?]]; nia.
Qed.

(** The mantissa and exponent that [div_normal] returns, compared with those
    of the threshold: the outcome is that of comparing [n / p] with
    [2 / 25]. *)
Lemma quotient_vs_threshold :
  let Er := if M <? 2 ^ pr then dn - dp - pr + k else dn - dp - pr + k + 1 in
  let Mr := if M <? 2 ^ pr then M else 2 ^ (pr - 1) in
  match Er ?= - pr - 3 with
  | Lt => Lt
  | Gt => Gt
  | Eq => Mr ?= THRESHOLD_m fmt
  end = (25 * n ?= 2 * p).
Proof.
  pose proof in_range_facts as (Hpr & Hpow & Hpp & Hn' & Hp').
  pose proof (in_range_digits n Hn') as [Hdn Bn].
  pose proof (in_range_digits p Hp') as [Hdp Bp].
  fold dn in Hdn, Bn. fold dp in Hdp, Bp.
  pose proof rounded_mantissa_bounds as HM.
  pose proof quot_shift_cases as Hk.
  pose proof (THRESHOLD_m_range fmt) as [HMC Hodd]. fold pr in HMC, Hodd.
  assert (Hgt : dn - dp + k = -3 ->
                (THRESHOLD_m fmt < M <-> 2 * p < 25 * n)).
  { intros Hd. rewrite (mantissa_test _ Hd).
    apply midpoint_above_iff; [lia|apply Hp]. }
  assert (Hlt : dn - dp + k = -3 ->
                (THRESHOLD_m fmt - 1 < M <-> 2 * p <= 25 * n)).
  { intros Hd. rewrite (mantissa_test _ Hd).
    apply midpoint_below_iff; [lia|apply Hp]. }
  assert (Hcar : dn - dp + k = -3 -> 2 ^ pr <= M -> 2 * p < 25 * n).
  { intros Hd Hc. apply (carry_implies fmt); try lia. fold pr.
    pose proof (mantissa_test (2 ^ pr - 1) Hd) as Ht. rewrite Hodd in Ht.
    apply Ht. lia. }
  pose proof (mantissas_compare 3 ltac:(lia)) as H3.
  change (2 ^ 3) with 8 in H3.
  pose proof (mantissas_compare 4 ltac:(lia)) as H4.
  change (2 ^ 4) with 16 in H4.
  assert (Hlo : dn - dp <= -5 -> 16 * n < p).
  { intros Hd.
    assert (2 ^ (dn + 4) <= 2 ^ (dp - 1)) by (apply Z.pow_le_mono_r; lia).
    rewrite Z.pow_add_r in * by lia. change (2 ^ 4) with 16 in *. lia. }
  assert (Hhi : -2 <= dn - dp -> p < 8 * n).
  { intros Hd.
    assert (2 ^ dp <= 2 ^ (dn - 1 + 3)) by (apply Z.pow_le_mono_r; lia).
    rewrite Z.pow_add_r in * by lia. change (2 ^ 3) with 8 in *. lia. }
  cbv zeta.
  destruct (Z.ltb_spec M (2 ^ pr)) as [Hnc|Hc];
    destruct (Z.compare_spec (25 * n) (2 * p));
    match goal with
    | |- context [?e ?= - pr - 3] => destruct (Z.compare_spec e (- pr - 3))
    end;
    try match goal with
    | |- context [?m ?= THRESHOLD_m fmt] =>
        destruct (Z.compare_spec m (THRESHOLD_m fmt))
    end;
    try reflexivity; exfalso; lia.
Qed.

End QuotientAgainstThreshold.

(** For turn times in range, the comparison that [lightSpeedCallback] makes
    in [double] arithmetic has the outcome of comparing the exact quotient
    [|last - turnTime| / turnTime] with [8 / 100]. *)
Theorem deviation_compare_exact (fmt : Format) (last turnTime : Z) :
  0 <= last < exact_range fmt -> 0 < turnTime < exact_range fmt ->
  SFcompare (relative_deviation fmt last turnTime)
            (RELATIVE_INHIBITION_THRESHOLD fmt) =
  Some (100 * Z.abs (last - turnTime) ?= 8 * turnTime).
Proof.
  intros Ha Hp. pose proof (exact_range_facts fmt) as [HR Hpow].
  pose proof (fmt_facts fmt) as (Hpr & _).
  assert (HP : 0 < 2 ^ (prec fmt - 1)) by (apply Z.pow_pos_nonneg; lia).
  rewrite relative_deviation_exact by lia. rewrite THRESHOLD_value.
  destruct (Z.eqb_spec last turnTime) as [E|NE].
  - subst turnTime. rewrite Z.sub_diag. cbn [Z.abs SFcompare].
    rewrite Z.mul_0_r. f_equal. symmetry. apply Z.compare_lt_iff. lia.
  - set (n := Z.abs (last - turnTime)).
    assert (Hn : 0 < n < exact_range fmt) by (unfold n; lia).
    assert (Hn' : 0 < n < 2 ^ prec fmt) by lia.
    assert (Hp' : 0 < turnTime < 2 ^ prec fmt) by lia.
    pose proof (canon_m_pos fmt n Hn') as Hm1.
    pose proof (canon_m_pos fmt turnTime Hp') as Hm2.
    pose proof (digits_range fmt n Hn') as Hdn.
    pose proof (digits_range fmt turnTime Hp') as Hdp.
    unfold canon_float. rewrite div_normal.
    2,3: rewrite Z2Pos.id by assumption; apply canon_m_digits; assumption.
    2: unfold canon_e; lia.
    rewrite !Z2Pos.id by assumption.
    pose proof (quotient_vs_threshold fmt n turnTime Hn Hp) as Hcore.
    pose proof (rounded_mantissa_bounds fmt n turnTime Hn Hp) as HMb.
    cbv zeta in Hcore.
    assert (HMC : 0 < THRESHOLD_m fmt) by (destruct fmt; cbn; lia).
    replace (100 * n ?= 8 * turnTime) with (25 * n ?= 2 * turnTime).
    2:{ destruct (Z.compare_spec (25 * n) (2 * turnTime)); symmetry;
        [apply Z.compare_eq_iff | apply Z.compare_lt_iff
        | apply Z.compare_gt_iff]; lia. }
    rewrite <- Hcore.
    destruct (Z.ltb_spec
                (rne (canon_m (prec fmt) n * 2 ^ prec fmt)
                   (canon_m (prec fmt) turnTime *
                    2 ^ quot_shift (canon_m (prec fmt) n)
                          (canon_m (prec fmt) turnTime)))
                (2 ^ prec fmt)) as [Hlt|Hge];
      rewrite SFcompare_finite_pos, !Z2Pos.id by lia;
      unfold canon_e;
      match goal with
      | |- Some (match ?x ?= _ with _ => _ end) =
           Some (match ?y ?= _ with _ => _ end) =>
          replace x with y by lia; reflexivity
      end.
Qed.

(** In range, the threshold test is the exact test. *)
Corollary deviation_test_exact (fmt : Format) (last turnTime : Z) :
  0 <= last < exact_range fmt -> 0 < turnTime < exact_range fmt ->
  Double.gt (relative_deviation fmt last turnTime)
            (RELATIVE_INHIBITION_THRESHOLD fmt) =
  (8 * turnTime <? 100 * Z.abs (last - turnTime)).
Proof.
  intros Ha Hp. unfold Double.gt.
  rewrite deviation_compare_exact by assumption.
  rewrite Z.ltb_compare, (Z.compare_antisym (100 * _)).
  destruct (100 * Z.abs (last - turnTime) ?= 8 * turnTime); reflexivity.
Qed.

(** ** The same quotient on the largest ranges *)




(** A quotient of exactly [2 / 25] lies strictly between the mid-points
    around the threshold. *)
Lemma midpoints_at_ratio (fmt : Format) (n p : Z) :
  0 < n -> 25 * n = 2 * p ->
  ~ (if Z.odd (THRESHOLD_m fmt)
     then (2 * THRESHOLD_m fmt + 1) * p <= 2 ^ (prec fmt + 4) * n
     else (2 * THRESHOLD_m fmt + 1) * p < 2 ^ (prec fmt + 4) * n)
  /\ (if Z.odd (THRESHOLD_m fmt - 1)
      then (2 * (THRESHOLD_m fmt - 1) + 1) * p <= 2 ^ (prec fmt + 4) * n
      else (2 * (THRESHOLD_m fmt - 1) + 1) * p < 2 ^ (prec fmt + 4) * n).
Proof.
  intros Hn Hratio.
  destruct fmt; cbv [prec THRESHOLD_m] in *;
    cbn [Z.sub Z.add Z.opp Z.pos_sub Z.odd Pos.pred_double] in *; lia.
Qed.

Section QuotientOfMantissaSize.

Variable fmt : Format.
Variables n p : Z.
Hypothesis Hn : 0 < n < 2 ^ prec fmt.
Hypothesis Hp : 0 < p < 2 ^ prec fmt.

Let pr := prec fmt.
Let dn := Zdigits2 n.
Let dp := Zdigits2 p.
Let m1 := canon_m pr n.
Let m2 := canon_m pr p.
Let k := quot_shift m1 m2.
Let M := rne (m1 * 2 ^ pr) (m2 * 2 ^ k).

Lemma mantissa_size_facts :
  1 < pr /\ 2 ^ pr = 2 * 2 ^ (pr - 1) /\ 0 < 2 ^ (pr - 1)
  /\ (1 <= dn <= pr /\ 2 ^ (dn - 1) <= n < 2 ^ dn)
  /\ (1 <= dp <= pr /\ 2 ^ (dp - 1) <= p < 2 ^ dp).
Proof.
  unfold pr, dn, dp. pose proof (fmt_facts fmt) as (H & _).
  pose proof (exact_range_facts fmt) as (_ & Hpow).
  pose proof (digits_range fmt n Hn). pose proof (digits_range fmt p Hp).
  pose proof (Zdigits2_bounds n ltac:(lia)).
  pose proof (Zdigits2_bounds p ltac:(lia)).
  assert (0 < 2 ^ (prec fmt - 1)) by (apply Z.pow_pos_nonneg; lia).
  repeat split; lia.
Qed.

Lemma quot_shift_cases_any : (k = 1 /\ m2 <= m1) \/ (k = 0 /\ m1 < m2).
Proof.
  unfold k, quot_shift.
  destruct (Z.leb_spec m2 m1); [left | right]; split; lia.
Qed.

Lemma mantissas_compare_any (j : Z) :
  0 <= j -> dn - dp = - j -> (m2 <= m1 <-> p <= 2 ^ j * n).
Proof.
  intros Hj Hd.
  pose proof mantissa_size_facts as (_ & _ & _ & [Hdn _] & [Hdp _]).
  unfold m1, m2, canon_m. fold dn dp.
  replace (pr - dn) with (j + (pr - dp)) by lia.
  rewrite Z.pow_add_r by lia.
  replace (n * (2 ^ j * 2 ^ (pr - dp))) with (2 ^ j * n * 2 ^ (pr - dp))
    by ring.
  apply scaled_le. apply Z.pow_pos_nonneg; lia.
Qed.

Lemma mantissa_test_any (c : Z) :
  dn - dp + k = -3 ->
  (c < M <->
   if Z.odd c then (2 * c + 1) * p <= 2 ^ (pr + 4) * n
   else (2 * c + 1) * p < 2 ^ (pr + 4) * n).
Proof.
  intros Hd.
  pose proof mantissa_size_facts as (Hpr & _ & _ & [Hdn _] & [Hdp _]).
  assert (Hk : 0 <= k)
    by (destruct quot_shift_cases_any as [[-> _]|[-> _]]; lia).
  unfold M. apply rne_scaled_gt with (w := 2 ^ (pr - dp) * 2 ^ k).
  - apply Z.mul_pos_pos; apply Z.pow_pos_nonneg; lia.
  - lia.
  - unfold m1, canon_m. fold dn.
    replace (pr - dn) with (3 + (pr - dp) + k) by lia.
    rewrite !Z.pow_add_r by lia.
    change (2 ^ 3) with 8. change (2 ^ 4) with 16. ring.
  - unfold m2, canon_m. fold dp. ring.
Qed.


(** The binade of the quotient, read off the digits of [n] and [p]. *)
Lemma binade_facts :
  (dn - dp <= -5 -> 16 * n < p) /\ (-2 <= dn - dp -> p < 8 * n)
  /\ (dn - dp = -3 -> (m2 <= m1 <-> p <= 8 * n))
  /\ (dn - dp = -4 -> (m2 <= m1 <-> p <= 16 * n)).
Proof.
  pose proof mantissa_size_facts as (_ & _ & _ & [Hdn Bn] & [Hdp Bp]).
  pose proof (mantissas_compare_any 3 ltac:(lia)) as H3.
  change (2 ^ 3) with 8 in H3.
  pose proof (mantissas_compare_any 4 ltac:(lia)) as H4.
  change (2 ^ 4) with 16 in H4.
  split; [|split; [|split]].
  - intros Hd.
    assert (2 ^ (dn + 4) <= 2 ^ (dp - 1)) by (apply Z.pow_le_mono_r; lia).
    rewrite Z.pow_add_r in * by lia. change (2 ^ 4) with 16 in *. lia.
  - intros Hd.
    assert (2 ^ dp <= 2 ^ (dn - 1 + 3)) by (apply Z.pow_le_mono_r; lia).
    rewrite Z.pow_add_r in * by lia. change (2 ^ 3) with 8 in *. lia.
  - intros Hd. apply H3. exact Hd.
  - intros Hd. apply H4. exact Hd.
Qed.


(** When [n / p] is exactly [2 / 25], the quotient that [div_normal] returns
    is the threshold. *)
Lemma quotient_is_threshold :
  25 * n = 2 * p ->
  M = THRESHOLD_m fmt /\ dn - dp - pr + k = - pr - 3.
Proof.
  intros Hratio.
  pose proof mantissa_size_facts as (Hpr & Hpow & Hpp & [Hdn Bn] & [Hdp Bp]).
  pose proof quot_shift_cases_any as Hk.
  pose proof binade_facts as (Hlo & Hhi & H3 & H4).
  assert (Hd : dn - dp + k = -3) by lia.
  pose proof (midpoints_at_ratio fmt n p ltac:(lia) Hratio) as [Hup Hdown].
  fold pr in Hup, Hdown.
  pose proof (mantissa_test_any (THRESHOLD_m fmt) Hd) as Tup.
  pose proof (mantissa_test_any (THRESHOLD_m fmt - 1) Hd) as Tdown.
  assert (Hle : ~ THRESHOLD_m fmt < M)
    by (intros Habove; apply Hup, Tup; exact Habove).
  assert (Hge : THRESHOLD_m fmt - 1 < M) by (apply Tdown; exact Hdown).
  split; lia.
Qed.

End QuotientOfMantissaSize.


(** For turn times below [stored_range], a quotient of exactly [8 / 100] is
    computed as the threshold itself. *)
Lemma ratio_computed_as_threshold (fmt : Format) (last turnTime : Z) :
  0 <= last < stored_range fmt -> 0 < turnTime < stored_range fmt ->
  100 * Z.abs (last - turnTime) = 8 * turnTime ->
  relative_deviation fmt last turnTime = RELATIVE_INHIBITION_THRESHOLD fmt.
Proof.
  unfold stored_range. intros Ha Hp Hratio.
  pose proof (fmt_facts fmt) as (Hpr & _).
  rewrite relative_deviation_exact by lia.
  destruct (Z.eqb_spec last turnTime) as [E|NE]; [lia|].
  rewrite THRESHOLD_value. set (n := Z.abs (last - turnTime)) in *.
  assert (Hn : 0 < n < 2 ^ prec fmt) by (unfold n; lia).
  pose proof (canon_m_pos fmt n Hn) as Hm1.
  pose proof (canon_m_pos fmt turnTime Hp) as Hm2.
  pose proof (digits_range fmt n Hn) as Hdn.
  pose proof (digits_range fmt turnTime Hp) as Hdp.
  unfold canon_float. rewrite div_normal.
  2,3: rewrite Z2Pos.id by assumption; apply canon_m_digits; assumption.
  2: unfold canon_e; lia.
  rewrite !Z2Pos.id by assumption.
  pose proof (quotient_is_threshold fmt n turnTime Hn Hp ltac:(lia))
    as [HM HE].
  pose proof (THRESHOLD_m_range fmt) as [HMC _].
  rewrite HM.
  replace (THRESHOLD_m fmt <? 2 ^ prec fmt) with true
    by (symmetry; apply Z.ltb_lt; lia).
  f_equal. unfold canon_e. lia.
Qed.

(** ** Consequences for the threshold test *)

(** In range, the computed deviation equals the threshold exactly when the
    exact quotient equals [8 / 100]. *)
Lemma exact_ratio_at_threshold (fmt : Format) (last turnTime : Z) :
  0 <= last < exact_range fmt -> 0 < turnTime < exact_range fmt ->
  (SFcompare (relative_deviation fmt last turnTime)
             (RELATIVE_INHIBITION_THRESHOLD fmt) = Some Eq
   <-> 100 * Z.abs (last - turnTime) = 8 * turnTime).
Proof.
  intros Ha Hp. rewrite deviation_compare_exact by assumption.
  rewrite <- Z.compare_eq_iff. split; [congruence | intros ->; reflexivity].
Qed.

(** The deviation of the first sample after construction is one. *)
Lemma first_deviation_is_one (fmt : Format) (p : Z) :
  0 < p < ULONG_WIDEST -> relative_deviation fmt 0 p = Double.one fmt.
Proof.
  intros Hp. unfold relative_deviation. rewrite of_ulong_0.
  destruct (of_ulong_finite fmt p Hp) as (m & e & ->).
  cbn [Double.sub SFsub negb Double.fabs SFabs]. apply div_self.
Qed.

(** A sample equal to the stored turn time never exceeds the threshold,
    whatever its conversion to [double] yields. *)
Lemma same_turn_time_not_above (fmt : Format) (p : Z) :
  Double.gt (relative_deviation fmt p p) (RELATIVE_INHIBITION_THRESHOLD fmt)
  = false.
Proof.
  unfold relative_deviation. rewrite THRESHOLD_value.
  destruct (Double.of_ulong fmt p) as [s|s| |s m e].
  - destruct s; reflexivity.
  - destruct s; reflexivity.
  - reflexivity.
  - rewrite sub_self. destruct s; reflexivity.
Qed.

(** The deviation of such a sample is [+0] when it is a positive
    [unsigned long]. *)
Lemma same_turn_time_deviation (fmt : Format) (p : Z) :
  0 < p < ULONG_WIDEST -> relative_deviation fmt p p = S754_zero false.
Proof.
  intros Hp. unfold relative_deviation.
  destruct (of_ulong_finite fmt p Hp) as (m & e & ->).
  rewrite sub_self. reflexivity.
Qed.

(** ** Revolution ticks *)

Lemma run_ticks_last_turn_time (fmt : Format) (ts : list Z) (this : Inhibitor) :
  mLastTurnTime (run fmt (map HallSpeed ts) this) = mLastTurnTime this.
Proof.
  revert this. induction ts as [|t ts IH]; intros this; [reflexivity|].
  cbn [map]. rewrite run_cons, IH. cbn [step].
  rewrite exec_hallSpeedCallback. reflexivity.
Qed.

Lemma run_ticks_clear (fmt : Format) (ts : list Z) (this : Inhibitor) :
  Clear this -> run fmt (map HallSpeed ts) this = this.
Proof.
  unfold Clear. intros Hc. induction ts as [|t ts IH]; [reflexivity|].
  cbn [map]. rewrite run_cons. cbn [step].
  rewrite exec_hallSpeedCallback, Hc. cbn [Z.ltb Z.compare].
  destruct this as [l r]; cbn in *. subst r. exact IH.
Qed.

Lemma run_repeat_fixed (fmt : Format) (c : call) (count : nat)
  (this : Inhibitor) :
  step fmt this c = this -> run fmt (repeat c count) this = this.
Proof.
  intros Hfix. induction count as [|count IH]; [reflexivity|].
  cbn [repeat]. rewrite run_cons, Hfix. exact IH.
Qed.

(** ** The scenarios of the specification, evaluated *)

Example cold_start_then_steady :
  map (fun cs => result isInhibited (run binary64 cs Inhibitor_new))
    [ [LightSpeed 1000]
    ; [LightSpeed 1000; HallSpeed 1000]
    ; [LightSpeed 1000; HallSpeed 1000; HallSpeed 1000]
    ; [LightSpeed 1000; HallSpeed 1000; HallSpeed 1000; LightSpeed 1000] ]
  = [true; true; false; false].
Proof. vm_compute. reflexivity. Qed.

Example small_jitter_ignored :
  exec (lightSpeedCallback binary64 1050)
       {| mLastTurnTime := 1000; mInhibitRounds := 0 |}
  = {| mLastTurnTime := 1050; mInhibitRounds := 0 |}.
Proof. vm_compute. reflexivity. Qed.

Example large_change_arms :
  exec (lightSpeedCallback binary64 1100)
       {| mLastTurnTime := 1000; mInhibitRounds := 0 |}
  = {| mLastTurnTime := 1100; mInhibitRounds := 2 |}.
Proof. vm_compute. reflexivity. Qed.

Example rearm_during_inhibit :
  map (fun cs => mInhibitRounds
                   (run binary64 cs
                      {| mLastTurnTime := 1000; mInhibitRounds := 0 |}))
    [ [LightSpeed 1100; HallSpeed 0]
    ; [LightSpeed 1100; HallSpeed 0; LightSpeed 1250]
    ; [LightSpeed 1100; HallSpeed 0; LightSpeed 1250; HallSpeed 0]
    ; [LightSpeed 1100; HallSpeed 0; LightSpeed 1250; HallSpeed 0;
       HallSpeed 0] ]
  = [1; 2; 1; 0].
Proof. vm_compute. reflexivity. Qed.

Example debug_output_when_arming :
  output (lightSpeedCallback binary32 1100)
         {| mLastTurnTime := 1000; mInhibitRounds := 0 |}
  = [ debugprintln_of (dbg_text "=== inhibition")
    ; debugprint_of (dbg_text "last turn time: ")
    ; debugprintln_of (dbg_ulong 1000)
    ; debugprint_of (dbg_text "this turn time: ")
    ; debugprintln_of (dbg_ulong 1100) ].
Proof. vm_compute. reflexivity. Qed.

(** ** Beyond the range

    The bound [exact_range] cannot be dropped: once a turn time has more bits
    than the mantissa, its conversion is rounded and the computed test may
    part from the exact one.  In binary32 this happens for turn times of
    25 bits; in binary64 it takes more than 53 bits, which only a 64-bit
    [unsigned long] can hold. *)

Example rounded_conversion_misses_binary32 :
  Double.gt (relative_deviation binary32 27000013 25000012)
            (RELATIVE_INHIBITION_THRESHOLD binary32) = false
  /\ (8 * 25000012 <? 100 * Z.abs (27000013 - 25000012)) = true.
Proof. split; vm_compute; reflexivity. Qed.

Example rounded_conversion_arms_binary32 :
  Double.gt (relative_deviation binary32 27000027 25000025)
            (RELATIVE_INHIBITION_THRESHOLD binary32) = true
  /\ 100 * Z.abs (27000027 - 25000025) = 8 * 25000025.
Proof. split; vm_compute; reflexivity. Qed.

Example rounded_conversion_misses_binary64 :
  Double.gt (relative_deviation binary64 (27 * 2 ^ 49 + 1) (25 * 2 ^ 49))
            (RELATIVE_INHIBITION_THRESHOLD binary64) = false
  /\ (8 * (25 * 2 ^ 49) <? 100 * Z.abs (27 * 2 ^ 49 + 1 - 25 * 2 ^ 49)) = true.
Proof. split; vm_compute; reflexivity. Qed.

(** * The claims of the specification *)




(** C2.  After every sequence of calls on a new object, [isInhibited()]
    returns true exactly when [mInhibitRounds > 0], as it does on every object
    whose counter is a value of its type; and on any object the call is a
    pure read: the object is unchanged and nothing is printed. *)
Theorem isInhibited_reads_counter (fmt : Format) (cs : list call) :
  let this := run fmt cs Inhibitor_new in
  (result isInhibited this = true <-> 0 < mInhibitRounds this)
  /\ forall any : Inhibitor,
       exec isInhibited any = any
       /\ output isInhibited any = []
       /\ (ushort_range (mInhibitRounds any) ->
           (result isInhibited any = true <-> 0 < mInhibitRounds any)).
Proof.
  intros this. split.
  - pose proof (run_rounds_range fmt cs) as Hr. fold this in Hr.
    rewrite result_isInhibited, negb_true_iff, Z.eqb_neq. lia.
  - intros any. split; [reflexivity|]. split; [reflexivity|].
    unfold ushort_range. intros Hrange.
    rewrite result_isInhibited, negb_true_iff, Z.eqb_neq. lia.
Qed.

(** C3.  For every object, [hallSpeedCallback] decrements [mInhibitRounds] by
    exactly one when it is positive and does nothing when it is zero (no
    wrap-around below zero); so [isInhibited()] goes from true to false
    exactly on the call that takes the counter from 1 to 0. *)
Theorem hallSpeedCallback_countdown (this : Inhibitor) (t : Z) :
  ushort_range (mInhibitRounds this) ->
  let after := exec (hallSpeedCallback t) this in
  (0 < mInhibitRounds this ->
   after = {| mLastTurnTime := mLastTurnTime this
            ; mInhibitRounds := mInhibitRounds this - 1 |})
  /\ (mInhibitRounds this = 0 -> after = this)
  /\ (result isInhibited this = true /\ result isInhibited after = false
      <-> mInhibitRounds this = 1).
Proof.
  intros Hrange after. unfold after. rewrite exec_hallSpeedCallback.
  destruct this as [l r]. cbn [mLastTurnTime mInhibitRounds] in *.
  rewrite !result_isInhibited. cbn [mInhibitRounds].
  destruct (Z.ltb_spec 0 r) as [Hpos|Hzero].
  - rewrite (ushort_wrap_pred r Hpos Hrange). split; [|split].
    + intros _. reflexivity.
    + intros Hr. lia.
    + rewrite negb_true_iff, negb_false_iff, Z.eqb_neq, Z.eqb_eq. lia.
  - assert (r = 0) by (unfold ushort_range in Hrange; lia). subst r.
    split; [|split].
    + intros Hr. lia.
    + intros _. reflexivity.
    + cbn. split; [intros [H _]; discriminate H | intros H; discriminate H].
Qed.

Lemma hallSpeedCallback_countdown_witness :
  ushort_range 1 /\
  let this := {| mLastTurnTime := 1000; mInhibitRounds := 1 |} in
  let after := exec (hallSpeedCallback 1000) this in
  (0 < mInhibitRounds this ->
   after = {| mLastTurnTime := mLastTurnTime this
            ; mInhibitRounds := mInhibitRounds this - 1 |})
  /\ (mInhibitRounds this = 0 -> after = this)
  /\ (result isInhibited this = true /\ result isInhibited after = false
      <-> mInhibitRounds this = 1).
Proof.
  assert (H : ushort_range 1) by (unfold ushort_range, USHRT_MODULUS; lia).
  split; [exact H|].
  exact (hallSpeedCallback_countdown
           {| mLastTurnTime := 1000; mInhibitRounds := 1 |} 1000 H).
Defined.

(** C4.  After every sequence of calls on a new object, [mInhibitRounds] is
    0, 1 or 2; [hallSpeedCallback] never increases it, and
    [lightSpeedCallback] sets it to [REARM = 2] or leaves it unchanged. *)
Theorem rounds_bounded (fmt : Format) (cs : list call) :
  (let r := mInhibitRounds (run fmt cs Inhibitor_new) in
   r = 0 \/ r = 1 \/ r = REARM)
  /\ (forall this t,
        mInhibitRounds (exec (hallSpeedCallback t) this) <= mInhibitRounds this)
  /\ (forall this p,
        let r' := mInhibitRounds (exec (lightSpeedCallback fmt p) this) in
        r' = REARM \/ r' = mInhibitRounds this).
Proof.
  unfold REARM. repeat split.
  - pose proof (run_rounds_range fmt cs). cbv zeta. lia.
  - intros this t. rewrite exec_hallSpeedCallback. cbn [mInhibitRounds].
    destruct (Z.ltb_spec 0 (mInhibitRounds this)) as [Hpos|Hzero]; [|lia].
    pose proof (ushort_wrap_pred_le _ Hpos). lia.
  - intros this p. rewrite exec_lightSpeedCallback. cbn [mInhibitRounds].
    destruct (Double.gt _ _); [left | right]; reflexivity.
Qed.

(** C5.  For every turn time [p > 0], the first [lightSpeedCallback p] on a
    new object arms the inhibition: [mLastTurnTime] starts at 0, so the
    relative deviation is exactly 1, which exceeds the threshold; the counter
    becomes 2 and [isInhibited()] is true. *)
Theorem first_sample_arms (fmt : Format) (p : Z) :
  0 < p -> ulong_range p ->
  let after := exec (lightSpeedCallback fmt p) Inhibitor_new in
  relative_deviation fmt (mLastTurnTime Inhibitor_new) p = Double.one fmt
  /\ Double.gt (Double.one fmt) (RELATIVE_INHIBITION_THRESHOLD fmt) = true
  /\ after = {| mLastTurnTime := p; mInhibitRounds := REARM |}
  /\ result isInhibited after = true.
Proof.
  intros Hp [_ Hrange] after.
  assert (Hone : relative_deviation fmt (mLastTurnTime Inhibitor_new) p
                 = Double.one fmt)
    by (apply first_deviation_is_one; lia).
  assert (Hafter : after = {| mLastTurnTime := p; mInhibitRounds := REARM |}).
  { unfold after. rewrite exec_lightSpeedCallback, Hone, one_gt_THRESHOLD.
    reflexivity. }
  repeat split; try assumption.
  - apply one_gt_THRESHOLD.
  - rewrite Hafter. reflexivity.
Qed.

Lemma first_sample_arms_witness :
  0 < 1000 /\ ulong_range 1000 /\
  let after := exec (lightSpeedCallback binary32 1000) Inhibitor_new in
  relative_deviation binary32 (mLastTurnTime Inhibitor_new) 1000
    = Double.one binary32
  /\ Double.gt (Double.one binary32) (RELATIVE_INHIBITION_THRESHOLD binary32)
     = true
  /\ after = {| mLastTurnTime := 1000; mInhibitRounds := REARM |}
  /\ result isInhibited after = true.
Proof.
  assert (H : ulong_range 1000) by (unfold ulong_range, ULONG_WIDEST; lia).
  split; [lia|]. split; [exact H|].
  exact (first_sample_arms binary32 1000 ltac:(lia) H).
Defined.

(** C6.  From Clear ([mInhibitRounds = 0]) any number of consecutive
    [hallSpeedCallback] calls, with any arguments, leaves the object as it
    was, and [isInhibited()] is false after each of them; ten calls in a row
    are the case [ts] of length ten. *)
Theorem ticks_from_clear (fmt : Format) (this : Inhibitor) (ts : list Z) :
  Clear this ->
  forall done : nat,
    let after := run fmt (map HallSpeed (firstn done ts)) this in
    after = this /\ Clear after /\ result isInhibited after = false.
Proof.
  intros Hclear done after.
  assert (Hafter : after = this) by (apply run_ticks_clear; assumption).
  rewrite Hafter. repeat split; try assumption.
  rewrite result_isInhibited. unfold Clear in Hclear. rewrite Hclear.
  reflexivity.
Qed.

Lemma ticks_from_clear_witness :
  Clear Inhibitor_new /\
  let after :=
    run binary64
      (map HallSpeed (firstn 10 [1000; 1001; 999; 1000; 0; 1; 2; 3; 4; 5]))
      Inhibitor_new in
  after = Inhibitor_new /\ Clear after /\ result isInhibited after = false.
Proof.
  assert (H : Clear Inhibitor_new) by reflexivity.
  split; [exact H|].
  exact (ticks_from_clear binary64 Inhibitor_new
           [1000; 1001; 999; 1000; 0; 1; 2; 3; 4; 5] H 10%nat).
Defined.

(** C7, as amended.  For every object whose [mLastTurnTime] is below
    [stored_range] (2^53 in binary64, 2^24 in binary32) and every turn time
    [p] with [0 < p < stored_range], a sample whose exact quotient
    [|mLastTurnTime - p| / p] equals [8 / 100] does not arm the inhibition:
    the quotient is computed as the threshold itself and the comparison is a
    strict greater-than, so the counter keeps its value and [isInhibited()]
    answers as before.  The spec's example, 1000 followed by 925.93, is no
    pair of integers; 27 followed by 25 is one. *)
Theorem exact_ratio_does_not_arm (fmt : Format) (this : Inhibitor) (p : Z) :
  0 <= mLastTurnTime this < stored_range fmt ->
  0 < p < stored_range fmt ->
  100 * Z.abs (mLastTurnTime this - p) = 8 * p ->
  let after := exec (lightSpeedCallback fmt p) this in
  after = {| mLastTurnTime := p; mInhibitRounds := mInhibitRounds this |}
  /\ result isInhibited after = result isInhibited this.
Proof.
  intros Hlast Hp Hratio after.
  assert (Hafter : after = {| mLastTurnTime := p
                            ; mInhibitRounds := mInhibitRounds this |}).
  { unfold after. rewrite exec_lightSpeedCallback.
    rewrite ratio_computed_as_threshold by assumption.
    rewrite THRESHOLD_not_above_itself. reflexivity. }
  split; [exact Hafter|]. rewrite Hafter. reflexivity.
Qed.

Lemma exact_ratio_does_not_arm_witness :
  let this := {| mLastTurnTime := 27; mInhibitRounds := 0 |} in
  0 <= mLastTurnTime this < stored_range binary32 /\
  0 < 25 < stored_range binary32 /\
  100 * Z.abs (mLastTurnTime this - 25) = 8 * 25 /\
  let after := exec (lightSpeedCallback binary32 25) this in
  after = {| mLastTurnTime := 25; mInhibitRounds := mInhibitRounds this |}
  /\ result isInhibited after = result isInhibited this.
Proof.
  assert (H1 : 0 <= 27 < stored_range binary32)
    by (unfold stored_range, prec; lia).
  assert (H2 : 0 < 25 < stored_range binary32)
    by (unfold stored_range, prec; lia).
  assert (H3 : 100 * Z.abs (27 - 25) = 8 * 25) by reflexivity.
  split; [exact H1|]. split; [exact H2|]. split; [exact H3|].
  exact (exact_ratio_does_not_arm binary32
           {| mLastTurnTime := 27; mInhibitRounds := 0 |} 25 H1 H2 H3).
Defined.

(** C7 as the specification words it, for every object, does not hold: once
    a turn time has more bits than the mantissa its conversion is rounded,
    and a sample at an exact quotient of [8 / 100] can arm the inhibition
    from Clear.  In binary32: 16777287 followed by 15534525.  In binary64:
    27522909997586334 followed by 25484175923691050. *)
Lemma exact_ratio_arms_beyond_range :
  (100 * Z.abs (16777287 - 15534525) = 8 * 15534525
   /\ Clear {| mLastTurnTime := 16777287; mInhibitRounds := 0 |}
   /\ exec (lightSpeedCallback binary32 15534525)
          {| mLastTurnTime := 16777287; mInhibitRounds := 0 |}
      = {| mLastTurnTime := 15534525; mInhibitRounds := 2 |}
   /\ result isInhibited
        (exec (lightSpeedCallback binary32 15534525)
           {| mLastTurnTime := 16777287; mInhibitRounds := 0 |}) = true)
  /\ (100 * Z.abs (27522909997586334 - 25484175923691050)
      = 8 * 25484175923691050
      /\ exec (lightSpeedCallback binary64 25484175923691050)
             {| mLastTurnTime := 27522909997586334; mInhibitRounds := 0 |}
         = {| mLastTurnTime := 25484175923691050; mInhibitRounds := 2 |}
      /\ result isInhibited
           (exec (lightSpeedCallback binary64 25484175923691050)
              {| mLastTurnTime := 27522909997586334; mInhibitRounds := 0 |})
         = true).
Proof. repeat split; vm_compute; reflexivity. Qed.

(** C8.  For every turn time [p > 0] and every object whose [mLastTurnTime]
    is [p], any number of further [lightSpeedCallback p] calls leaves the
    whole object unchanged: the deviation is exactly zero. *)
Theorem steady_state_idempotent (fmt : Format) (this : Inhibitor) (p : Z)
  (count : nat) :
  0 < p -> mLastTurnTime this = p ->
  run fmt (repeat (LightSpeed p) count) this = this
  /\ (ulong_range p -> relative_deviation fmt p p = S754_zero false).
Proof.
  intros Hp Hlast. split.
  - apply run_repeat_fixed. cbn [step].
    rewrite exec_lightSpeedCallback, Hlast, same_turn_time_not_above.
    destruct this as [l r]. cbn in *. subst l. reflexivity.
  - intros [_ Hrange]. apply same_turn_time_deviation. lia.
Qed.

Lemma steady_state_idempotent_witness :
  0 < 1000 /\
  mLastTurnTime {| mLastTurnTime := 1000; mInhibitRounds := 1 |} = 1000 /\
  run binary64 (repeat (LightSpeed 1000) 5)
      {| mLastTurnTime := 1000; mInhibitRounds := 1 |}
    = {| mLastTurnTime := 1000; mInhibitRounds := 1 |}
  /\ (ulong_range 1000 ->
      relative_deviation binary64 1000 1000 = S754_zero false).
Proof.
  split; [lia|]. split; [reflexivity|].
  exact (steady_state_idempotent binary64
           {| mLastTurnTime := 1000; mInhibitRounds := 1 |} 1000 5
           ltac:(lia) eq_refl).
Defined.

(** C9.  The effect of [hallSpeedCallback] does not depend on its argument:
    from any object, two calls with different arguments return the same
    value, leave the same object and print the same output. *)
Theorem hallSpeedCallback_ignores_argument (this : Inhibitor) (t1 t2 : Z) :
  hallSpeedCallback t1 this = hallSpeedCallback t2 this
  /\ exec (hallSpeedCallback t1) this = exec (hallSpeedCallback t2) this.
Proof.
  assert (H : hallSpeedCallback t1 this = hallSpeedCallback t2 this).
  { unfold hallSpeedCallback. reflexivity. }
  split; [exact H|]. unfold exec. rewrite H. reflexivity.
Qed.

(** C10.  [hallSpeedCallback] leaves [mLastTurnTime] unchanged and prints
    nothing: its only possible effect is on [mInhibitRounds].  So the
    deviation of the next sample is computed against the turn time of the
    last sample, whatever ticks came in between. *)
Theorem hallSpeedCallback_keeps_last_turn_time (fmt : Format)
  (this : Inhibitor) (t : Z) :
  mLastTurnTime (exec (hallSpeedCallback t) this) = mLastTurnTime this
  /\ output (hallSpeedCallback t) this = []
  /\ forall (ts : list Z) (p : Z),
       let between := run fmt (map HallSpeed ts) this in
       mLastTurnTime between = mLastTurnTime this
       /\ exec (lightSpeedCallback fmt p) between =
          {| mLastTurnTime := p
           ; mInhibitRounds :=
               if Double.gt (relative_deviation fmt (mLastTurnTime this) p)
                            (RELATIVE_INHIBITION_THRESHOLD fmt)
               then REARM else mInhibitRounds between |}.
Proof.
  split; [|split].
  - rewrite exec_hallSpeedCallback. reflexivity.
  - unfold output, hallSpeedCallback, bind, get_mInhibitRounds. cbn.
    destruct (0 <? mInhibitRounds this); reflexivity.
  - intros ts p between.
    assert (Hlast : mLastTurnTime between = mLastTurnTime this)
      by apply run_ticks_last_turn_time.
    split; [exact Hlast|].
    rewrite exec_lightSpeedCallback, Hlast. reflexivity.
Qed.

(** * Further properties of the code *)

(** ** Helper facts *)

Lemma ticks_nonneg (cs : list call) : 0 <= ticks cs.
Proof. induction cs as [|[t|t|] cs IH]; cbn [ticks]; lia. Qed.

(** A quiet sequence only counts down: the counter loses one per tick until
    it is zero, and the stored turn time follows the samples. *)
Lemma run_quiet (fmt : Format) (cs : list call) (this : Inhibitor) :
  ushort_range (mInhibitRounds this) ->
  quiet fmt (mLastTurnTime this) cs = true ->
  run fmt cs this =
  {| mLastTurnTime := last_sample cs (mLastTurnTime this)
   ; mInhibitRounds := Z.max 0 (mInhibitRounds this - ticks cs) |}.
Proof.
  revert this. induction cs as [|c cs IH]; intros [l r] Hrange Hquiet;
    cbn [mLastTurnTime mInhibitRounds] in *.
  - cbn [run fold_left last_sample ticks]. unfold ushort_range in Hrange.
    rewrite Z.sub_0_r, Z.max_r by lia. reflexivity.
  - pose proof (ticks_nonneg cs) as Hticks.
    rewrite run_cons. destruct c as [p|t|]; cbn [step quiet] in *.
    + apply andb_true_iff in Hquiet. destruct Hquiet as [Hno Hrest].
      apply negb_true_iff in Hno. unfold exceeds_threshold in Hno.
      rewrite exec_lightSpeedCallback. cbn [mLastTurnTime mInhibitRounds].
      rewrite Hno. rewrite IH by assumption. reflexivity.
    + rewrite exec_hallSpeedCallback. cbn [mLastTurnTime mInhibitRounds].
      destruct (Z.ltb_spec 0 r) as [Hpos|Hzero].
      * rewrite (ushort_wrap_pred r Hpos Hrange).
        rewrite IH; cbn [mLastTurnTime mInhibitRounds]; try assumption.
        -- cbn [last_sample ticks]. f_equal. lia.
        -- unfold ushort_range in *. lia.
      * rewrite IH by assumption. cbn [mLastTurnTime mInhibitRounds].
        cbn [last_sample ticks]. unfold ushort_range in Hrange. f_equal. lia.
    + rewrite exec_isInhibited. rewrite IH by assumption. reflexivity.
Qed.

Lemma run_last_sample (fmt : Format) (cs : list call) (this : Inhibitor) :
  mLastTurnTime (run fmt cs this) = last_sample cs (mLastTurnTime this).
Proof.
  revert this. induction cs as [|c cs IH]; intros this; [reflexivity|].
  rewrite run_cons, IH. destruct c as [p|t|]; cbn [step last_sample].
  - rewrite exec_lightSpeedCallback. reflexivity.
  - rewrite exec_hallSpeedCallback. reflexivity.
  - reflexivity.
Qed.

(** A turn time of zero: the quotient is [+infinity] when the stored turn
    time is positive and a NaN when it is zero too. *)
Lemma exceeds_threshold_zero (fmt : Format) (last : Z) :
  ulong_range last -> exceeds_threshold fmt last 0 = negb (last =? 0).
Proof.
  unfold ulong_range. intros Hrange.
  unfold exceeds_threshold, relative_deviation.
  rewrite of_ulong_0, THRESHOLD_value.
  destruct (Z.eqb_spec last 0) as [->|Hne].
  - rewrite of_ulong_0. reflexivity.
  - destruct (of_ulong_finite fmt last ltac:(lia)) as (m & e & ->).
    reflexivity.
Qed.

(** The test with exact integers, for turn times in range. *)
Lemma exceeds_threshold_exact (fmt : Format) (last p : Z) :
  0 <= last < exact_range fmt -> 0 < p < exact_range fmt ->
  exceeds_threshold fmt last p = (8 * p <? 100 * Z.abs (last - p)).
Proof. intros Hlast Hp. apply deviation_test_exact; assumption. Qed.

(** ** How calls compose *)

(** X1.  Countdown law.  As long as no sample exceeds the threshold, only the
    number of [hallSpeedCallback] calls matters: the counter is the old one
    minus the ticks, stopped at zero, wherever the samples and queries fall
    between them; so the release stays inhibited exactly while there were
    fewer ticks than the counter held. *)
Theorem countdown_law (fmt : Format) (this : Inhibitor) (cs : list call) :
  ushort_range (mInhibitRounds this) ->
  quiet fmt (mLastTurnTime this) cs = true ->
  let after := run fmt cs this in
  mInhibitRounds after = Z.max 0 (mInhibitRounds this - ticks cs)
  /\ (result isInhibited after = true <-> ticks cs < mInhibitRounds this).
Proof.
  intros Hrange Hquiet after. unfold after.
  rewrite result_isInhibited, (run_quiet fmt cs this Hrange Hquiet).
  cbn [mInhibitRounds]. split; [reflexivity|].
  rewrite negb_true_iff, Z.eqb_neq. unfold ushort_range in Hrange. lia.
Qed.

Lemma countdown_law_witness :
  let this := {| mLastTurnTime := 1000; mInhibitRounds := 2 |} in
  let cs := [HallSpeed 0; LightSpeed 1010; IsInhibited; HallSpeed 0] in
  ushort_range (mInhibitRounds this) /\
  quiet binary64 (mLastTurnTime this) cs = true /\
  let after := run binary64 cs this in
  mInhibitRounds after = Z.max 0 (mInhibitRounds this - ticks cs)
  /\ (result isInhibited after = true <-> ticks cs < mInhibitRounds this).
Proof.
  assert (Hrange : ushort_range 2) by (unfold ushort_range, USHRT_MODULUS; lia).
  assert (Hquiet : quiet binary64 1000
                     [HallSpeed 0; LightSpeed 1010; IsInhibited; HallSpeed 0]
                   = true) by (vm_compute; reflexivity).
  split; [exact Hrange|]. split; [exact Hquiet|].
  exact (countdown_law binary64
           {| mLastTurnTime := 1000; mInhibitRounds := 2 |}
           [HallSpeed 0; LightSpeed 1010; IsInhibited; HallSpeed 0]
           Hrange Hquiet).
Defined.

(** X2.  The class comment: after a change was detected the inhibition lasts
    for two hall rounds, and a further change during the inhibition resets it
    to two rounds.  Whatever the object held, once a sample exceeds the
    threshold and the calls after it are quiet, the counter is two minus the
    ticks since that sample (stopped at zero) and the release is inhibited
    exactly until the second of those ticks. *)
Theorem inhibition_lasts_two_rounds (fmt : Format) (this : Inhibitor) (p : Z)
  (post : list call) :
  exceeds_threshold fmt (mLastTurnTime this) p = true ->
  quiet fmt p post = true ->
  let after := run fmt (LightSpeed p :: post) this in
  mInhibitRounds after = Z.max 0 (2 - ticks post)
  /\ (result isInhibited after = true <-> ticks post < 2).
Proof.
  intros Harm Hquiet after. unfold after. rewrite run_cons. cbn [step].
  rewrite exec_lightSpeedCallback. unfold exceeds_threshold in Harm.
  rewrite Harm. rewrite result_isInhibited, run_quiet.
  - cbn [mInhibitRounds]. split; [reflexivity|].
    rewrite negb_true_iff, Z.eqb_neq. lia.
  - cbn [mInhibitRounds]. unfold ushort_range, USHRT_MODULUS. lia.
  - exact Hquiet.
Qed.

Lemma inhibition_lasts_two_rounds_witness :
  let this := {| mLastTurnTime := 1000; mInhibitRounds := 1 |} in
  let post := [LightSpeed 1100; HallSpeed 7; LightSpeed 1105; HallSpeed 7] in
  exceeds_threshold binary64 (mLastTurnTime this) 1100 = true /\
  quiet binary64 1100 post = true /\
  let after := run binary64 (LightSpeed 1100 :: post) this in
  mInhibitRounds after = Z.max 0 (2 - ticks post)
  /\ (result isInhibited after = true <-> ticks post < 2).
Proof.
  assert (Harm : exceeds_threshold binary64 1000 1100 = true)
    by (vm_compute; reflexivity).
  assert (Hquiet : quiet binary64 1100
                     [LightSpeed 1100; HallSpeed 7; LightSpeed 1105;
                      HallSpeed 7] = true) by (vm_compute; reflexivity).
  split; [exact Harm|]. split; [exact Hquiet|].
  exact (inhibition_lasts_two_rounds binary64
           {| mLastTurnTime := 1000; mInhibitRounds := 1 |} 1100
           [LightSpeed 1100; HallSpeed 7; LightSpeed 1105; HallSpeed 7]
           Harm Hquiet).
Defined.

(** X3.  After any sequence of calls the stored turn time is the argument of
    the last [lightSpeedCallback] call (the old one when there was none),
    whether or not that call armed the inhibition; the next sample is tested
    against it. *)
Theorem last_turn_time_is_last_sample (fmt : Format) (cs : list call)
  (this : Inhibitor) :
  mLastTurnTime (run fmt cs this) = last_sample cs (mLastTurnTime this)
  /\ forall p,
       exec (lightSpeedCallback fmt p) (run fmt cs this) =
       {| mLastTurnTime := p
        ; mInhibitRounds :=
            if exceeds_threshold fmt (last_sample cs (mLastTurnTime this)) p
            then 2 else mInhibitRounds (run fmt cs this) |}.
Proof.
  split; [apply run_last_sample|]. intros p.
  rewrite exec_lightSpeedCallback, run_last_sample. reflexivity.
Qed.

(** ** The test on integers *)

(** X5.  Tolerance band.  For turn times in range, a sample [p] leaves the
    counter alone exactly when the stored turn time lies within 8 percent
    of [p], that is between [0.92 * p] and [1.08 * p], both ends included;
    outside the band the counter becomes 2. *)
Theorem tolerance_band (fmt : Format) (this : Inhibitor) (p : Z) :
  0 <= mLastTurnTime this < exact_range fmt -> 0 < p < exact_range fmt ->
  exec (lightSpeedCallback fmt p) this =
  {| mLastTurnTime := p
   ; mInhibitRounds :=
       if (92 * p <=? 100 * mLastTurnTime this)
          && (100 * mLastTurnTime this <=? 108 * p)
       then mInhibitRounds this else 2 |}.
Proof.
  intros Hlast Hp. rewrite exec_lightSpeedCallback.
  fold (exceeds_threshold fmt (mLastTurnTime this) p).
  rewrite exceeds_threshold_exact by assumption.
  destruct (Z.ltb_spec (8 * p) (100 * Z.abs (mLastTurnTime this - p)));
    destruct (Z.leb_spec (92 * p) (100 * mLastTurnTime this));
    destruct (Z.leb_spec (100 * mLastTurnTime this) (108 * p));
    cbn [andb]; try reflexivity; exfalso; lia.
Qed.

Lemma tolerance_band_witness :
  let this := {| mLastTurnTime := 1080; mInhibitRounds := 0 |} in
  0 <= mLastTurnTime this < exact_range binary32 /\
  0 < 1000 < exact_range binary32 /\
  exec (lightSpeedCallback binary32 1000) this =
  {| mLastTurnTime := 1000
   ; mInhibitRounds :=
       if (92 * 1000 <=? 100 * mLastTurnTime this)
          && (100 * mLastTurnTime this <=? 108 * 1000)
       then mInhibitRounds this else 2 |}.
Proof.
  assert (H1 : 0 <= 1080 < exact_range binary32) by (unfold exact_range; lia).
  assert (H2 : 0 < 1000 < exact_range binary32) by (unfold exact_range; lia).
  split; [exact H1|]. split; [exact H2|].
  exact (tolerance_band binary32
           {| mLastTurnTime := 1080; mInhibitRounds := 0 |} 1000 H1 H2).
Defined.

(** X6.  The test does not depend on the unit of the turn times: scaling the
    stored and the new turn time by the same positive factor does not change
    its outcome, as long as the scaled values stay in range. *)
Theorem unit_independence (fmt : Format) (k last p : Z) :
  0 < k -> 0 <= last -> 0 < p ->
  k * last < exact_range fmt -> k * p < exact_range fmt ->
  exceeds_threshold fmt (k * last) (k * p) = exceeds_threshold fmt last p.
Proof.
  intros Hk Hlast Hp Hklast Hkp.
  rewrite !exceeds_threshold_exact by nia.
  rewrite <- Z.mul_sub_distr_l, Z.abs_mul, (Z.abs_eq k) by lia.
  destruct (Z.ltb_spec (8 * (k * p)) (100 * (k * Z.abs (last - p))));
    destruct (Z.ltb_spec (8 * p) (100 * Z.abs (last - p)));
    try reflexivity; exfalso; nia.
Qed.

Lemma unit_independence_witness :
  0 < 1000 /\ 0 <= 1000 /\ 0 < 1100 /\
  1000 * 1000 < exact_range binary32 /\ 1000 * 1100 < exact_range binary32 /\
  exceeds_threshold binary32 (1000 * 1000) (1000 * 1100)
  = exceeds_threshold binary32 1000 1100.
Proof.
  assert (H1 : 1000 * 1000 < exact_range binary32)
    by (unfold exact_range; lia).
  assert (H2 : 1000 * 1100 < exact_range binary32)
    by (unfold exact_range; lia).
  repeat (split; [lia || assumption|]).
  exact (unit_independence binary32 1000 1000 1100
           ltac:(lia) ltac:(lia) ltac:(lia) H1 H2).
Defined.

(** ** A turn time of zero *)

(** X7.  The code does not guard the division.  In IEEE arithmetic a sample
    of zero gives [+infinity] when the stored turn time is positive, which
    arms the inhibition, and a NaN when the stored turn time is zero too,
    which does not (every comparison with a NaN is false).  Either way zero
    is stored, so the next positive sample arms the inhibition. *)
Theorem zero_turn_time (fmt : Format) (this : Inhibitor) :
  ulong_range (mLastTurnTime this) ->
  let after := exec (lightSpeedCallback fmt 0) this in
  after = {| mLastTurnTime := 0
           ; mInhibitRounds :=
               if mLastTurnTime this =? 0 then mInhibitRounds this else 2 |}
  /\ forall p, 0 < p -> ulong_range p ->
       exec (lightSpeedCallback fmt p) after =
       {| mLastTurnTime := p; mInhibitRounds := 2 |}.
Proof.
  intros Hrange after.
  assert (Hafter : after =
    {| mLastTurnTime := 0
     ; mInhibitRounds :=
         if mLastTurnTime this =? 0 then mInhibitRounds this else 2 |}).
  { unfold after. rewrite exec_lightSpeedCallback.
    fold (exceeds_threshold fmt (mLastTurnTime this) 0).
    rewrite exceeds_threshold_zero by assumption.
    destruct (mLastTurnTime this =? 0); reflexivity. }
  split; [exact Hafter|]. intros p Hp [_ Hpmax].
  rewrite Hafter, exec_lightSpeedCallback. cbn [mLastTurnTime].
  rewrite first_deviation_is_one by lia. rewrite one_gt_THRESHOLD.
  reflexivity.
Qed.

Lemma zero_turn_time_witness :
  let this := {| mLastTurnTime := 1000; mInhibitRounds := 0 |} in
  ulong_range (mLastTurnTime this) /\
  let after := exec (lightSpeedCallback binary64 0) this in
  after = {| mLastTurnTime := 0
           ; mInhibitRounds :=
               if mLastTurnTime this =? 0 then mInhibitRounds this else 2 |}
  /\ forall p, 0 < p -> ulong_range p ->
       exec (lightSpeedCallback binary64 p) after =
       {| mLastTurnTime := p; mInhibitRounds := 2 |}.
Proof.
  assert (H : ulong_range 1000) by (unfold ulong_range, ULONG_WIDEST; lia).
  split; [exact H|].
  exact (zero_turn_time binary64
           {| mLastTurnTime := 1000; mInhibitRounds := 0 |} H).
Defined.
